(** * Association mining: Apriori, Eclat and rule generation

    A shallow embedding of [src/algorithms/apriori.py] and
    [src/algorithms/eclat.py], and the properties of the two frequent-itemset
    miners and of the shared rule generator; then of the timing harnesses,
    of [preprocess_transactions] ([src/preprocessing/cleaner.py]) and of the
    recommendation panel of [src/app.py].

    Conventions of the embedding:
    - an item is a [string]; a transaction ([set[str]]) and an itemset
      ([frozenset[str]]) are [gset string];
    - a [dict] is a [gmap]; iterating a dict or a set goes through
      [map_to_list] / [elements] (the iteration order of a Python set is
      unspecified as well, and no property below depends on it);
    - Python integers are [nat] (counts, lengths) and [Z] (the threshold);
    - Python floats are idealised as exact rationals [Q]: rounding, infinities
      and NaN are outside the model;
    - a raised exception is a value: fallible code returns a [result];
    - the [while] loop of [apriori] takes fuel, and [None] means that the fuel
      ran out before the loop condition became false. *)

From Stdlib Require Import QArith Qround.
From stdpp Require Import gmap strings list fin_maps fin_sets sorting.

Close Scope Q_scope.

(** ** Data model *)

Abbreviation Item := string (only parsing).
Abbreviation Itemset := (gset string) (only parsing).
Abbreviation Transaction := (gset string) (only parsing).

(** ** Exceptions *)

Inductive exn : Set := ZeroDivisionError | KeyError.

Inductive result (A : Type) : Type :=
| Ok (a : A)
| Raise (e : exn).
Arguments Ok {A} a.
Arguments Raise {A} e.

#[global] Instance result_ret : MRet result := λ A a, Ok a.
#[global] Instance result_bind : MBind result := λ A B f m,
  match m with
  | Ok a => f a
  | Raise e => Raise e
  end.

(** [for x in l: body], threading the state the body updates. *)
Fixpoint for_each {A S : Type} (l : list A) (body : A → S → result S) (s : S)
  : result S :=
  match l with
  | [] => Ok s
  | x :: l' => s' ← body x s; for_each l' body s'
  end.

(** ** Python primitives *)

(** [int(x)] on a float: truncation toward zero. *)
Definition py_int (x : Q) : Z := Z.quot (Qnum x) (Zpos (Qden x)).

(** An [int] used in float arithmetic. *)
Definition py_float (n : nat) : Q := inject_Z (Z.of_nat n).

(** [a / b]: raises when the divisor compares equal to zero. *)
Definition py_truediv (a b : Q) : result Q :=
  if Qeq_bool b 0 then Raise ZeroDivisionError else Ok (a / b)%Q.

(** The literal [1e-9]. *)
Definition eps : Q := 1 # 1000000000.

(** [itertools.combinations(pool, r)]: the [r]-length subsequences of [pool],
    in lexicographic order of positions. *)
Fixpoint combinations {A : Type} (pool : list A) (r : nat) : list (list A) :=
  match r, pool with
  | 0, _ => [[]]
  | S _, [] => []
  | S r', x :: pool' =>
      (cons x <$> combinations pool' r') ++ combinations pool' r
  end.

(** [{itemset: v / n for itemset, v in L.items()}], with [v] already read as a
    number by [num]. *)
Definition relative_support {V : Type} (num : V → nat)
    (L : gmap Itemset V) (n : nat) : result (gmap Itemset Q) :=
  for_each (map_to_list L)
    (λ '(itemset, v) frequent_itemsets,
       q ← py_truediv (py_float (num v)) (py_float n);
       Ok (<[itemset := q]> frequent_itemsets))
    ∅.

(** ** Association rules (the dict built at the end of the rule loop) *)

Record Rule : Type := mkRule {
  antecedent : Itemset;
  consequent : Itemset;
  support : Q;
  confidence : Q;
  lift : Q
}.

Module Apriori.

(** Lines 22-25: occurrences of each item. *)
Definition count_items (transactions : list Transaction) : gmap Item nat :=
  foldl (λ item_counts t,
           foldl (λ item_counts item,
                    <[item := default 0 (item_counts !! item) + 1]> item_counts)
                 item_counts (elements t))
        ∅ transactions.

(** Lines 42-46: every [(k-1)]-combination of [union] is a key of [Lk]. *)
Definition all_subsets_frequent (Lk : gmap Itemset nat) (union : Itemset)
    (k : nat) : bool :=
  forallb (λ subset : list Item,
             bool_decide (is_Some (Lk !! (list_to_set subset : Itemset))))
          (combinations (elements union) (k - 1)).

(** Lines 38-48: the inner loop, [j] ranging over the itemsets after [i]. *)
Definition join_row (Lk : gmap Itemset nat) (k : nat) (a : Itemset)
    (rest : list Itemset) (candidates : gset Itemset) : gset Itemset :=
  foldl (λ candidates b,
           let union := a ∪ b in
           if decide (size union = k) then
             if all_subsets_frequent Lk union k
             then {[union]} ∪ candidates
             else candidates
           else candidates)
        candidates rest.

(** Lines 37-48: the outer loop over [prev_itemsets]. *)
Fixpoint join_pairs (Lk : gmap Itemset nat) (k : nat)
    (prev_itemsets : list Itemset) (candidates : gset Itemset)
  : gset Itemset :=
  match prev_itemsets with
  | [] => candidates
  | a :: rest => join_pairs Lk k rest (join_row Lk k a rest candidates)
  end.

(** Lines 33-48. *)
Definition generate_candidates (Lk : gmap Itemset nat) (k : nat)
  : gset Itemset :=
  let prev_itemsets := (map_to_list Lk).*1 in
  join_pairs Lk k prev_itemsets ∅.

(** Lines 51-55: [counts[c] += 1] raises [KeyError] on a missing key. *)
Definition count_support (transactions : list Transaction)
    (candidates : gset Itemset) : result (gmap Itemset nat) :=
  for_each transactions
    (λ t counts,
       for_each (elements candidates)
         (λ c counts,
            if decide (c ⊆ t) then
              match counts !! c with
              | Some v => Ok (<[c := v + 1]> counts)
              | None => Raise KeyError
              end
            else Ok counts)
         counts)
    (gset_to_gmap 0 candidates).

(** Lines 32-60: [while Lk: ...]. *)
Fixpoint apriori_loop (fuel : nat) (transactions : list Transaction)
    (min_support_count : Z) (L Lk : gmap Itemset nat) (k : nat)
  : option (result (gmap Itemset nat)) :=
  if decide (Lk = ∅) then Some (Ok L) else
  match fuel with
  | 0 => None
  | S fuel' =>
      let candidates := generate_candidates Lk k in
      match count_support transactions candidates with
      | Raise e => Some (Raise e)
      | Ok counts =>
          let Lk' :=
            filter (λ p : Itemset * nat, (min_support_count ≤ Z.of_nat p.2)%Z)
                   counts in
          apriori_loop fuel' transactions min_support_count
                       (Lk' ∪ L) Lk' (k + 1)
      end
  end.

Definition apriori (fuel : nat) (transactions : list Transaction)
    (min_support : Q) : option (result (gmap Itemset Q)) :=
  let n := length transactions in
  if decide (n = 0) then Some (Ok ∅) else
  let min_support_count :=
    Z.max 1 (py_int (min_support * py_float n + eps)%Q) in
  let item_counts := count_items transactions in
  let L : gmap Itemset nat := ∅ in
  let Lk : gmap Itemset nat :=
    kmap singleton
         (filter (λ p : Item * nat, (min_support_count ≤ Z.of_nat p.2)%Z)
                 item_counts) in
  let L := Lk ∪ L in
  match apriori_loop fuel transactions min_support_count L Lk 2 with
  | None => None
  | Some (Raise e) => Some (Raise e)
  | Some (Ok L) => Some (relative_support id L n)
  end.

(** Lines 85-103: the body of the innermost loop, for one antecedent. *)
Definition rule_step (freq_itemsets : gmap Itemset Q) (min_confidence : Q)
    (itemset : Itemset) (supp_XY : Q) (antecedent_tuple : list Item)
    (rules : list Rule) : result (list Rule) :=
  let antecedent : Itemset := list_to_set antecedent_tuple in
  let consequent := itemset ∖ antecedent in
  if decide (consequent = ∅) then Ok rules else
  let supp_X := freq_itemsets !! antecedent in
  let supp_Y := freq_itemsets !! consequent in
  match supp_X, supp_Y with
  | Some supp_X, Some supp_Y =>
      if Qeq_bool supp_X 0 then Ok rules else
      confidence ← py_truediv supp_XY supp_X;
      if Qlt_le_dec confidence min_confidence then Ok rules else
      lift ← (if Qlt_le_dec 0 (supp_X * supp_Y)
              then py_truediv supp_XY (supp_X * supp_Y)
              else Ok 0%Q);
      Ok (rules ++ [mkRule antecedent consequent supp_XY confidence lift])
  | _, _ => Ok rules
  end.

(** Lines 78-104. *)
Definition generate_association_rules (freq_itemsets : gmap Itemset Q)
    (min_confidence : Q) : result (list Rule) :=
  for_each (map_to_list freq_itemsets)
    (λ '(itemset, supp_XY) rules,
       if decide (size itemset < 2) then Ok rules else
       let items := elements itemset in
       for_each (seq 1 (length items - 1))
         (λ r rules,
            for_each (combinations items r)
              (rule_step freq_itemsets min_confidence itemset supp_XY)
              rules)
         rules)
    [].

End Apriori.

Module Eclat.

(** Lines 22-25: the vertical index, keyed by singleton itemsets. *)
Definition build_tidsets (transactions : list Transaction)
  : gmap Itemset (gset nat) :=
  foldl (λ tidsets '(tid, t),
           foldl (λ tidsets item,
                    <[ ({[item]} : Itemset) :=
                         {[tid]} ∪ default ∅ (tidsets !! ({[item]} : Itemset)) ]>
                      tidsets)
                 tidsets (elements t))
        ∅ (imap pair transactions).

(** Lines 35-53: [dfs], closing over [min_support_count] and updating the
    shared [results]; the loop over [i] with [items[i + 1:]] walks the tails
    of [items]. *)
Fixpoint dfs (min_support_count : Z) (prefix : Itemset)
    (prefix_tids : gset nat) (items : list (Itemset * gset nat))
    (results : gmap Itemset (gset nat)) : gmap Itemset (gset nat) :=
  match items with
  | [] => results
  | (itemset_i, tids_i) :: rest =>
      let new_itemset :=
        if decide (prefix = ∅) then itemset_i else prefix ∪ itemset_i in
      let new_tids :=
        if decide (prefix = ∅) then tids_i else prefix_tids ∩ tids_i in
      let results :=
        if decide (min_support_count ≤ Z.of_nat (size new_tids))%Z then
          dfs min_support_count new_itemset new_tids rest
              (<[new_itemset := new_tids]> results)
        else results in
      dfs min_support_count prefix prefix_tids rest results
  end.

(** Line 57: [list(x[0])[0]], the item of a singleton key.  Every key of
    [tidsets] is built as [frozenset([item])] (line 25), so the index [0]
    exists; the default is never used ([singleton_items_spec]). *)
Definition sort_key (x : Itemset * gset nat) : Item :=
  default ""%string (head (elements x.1)).

Definition key_le (x y : Itemset * gset nat) : Prop :=
  String.leb (sort_key x) (sort_key y).

#[global] Instance key_le_dec : RelDecision key_le.
Proof. intros x y. unfold key_le. apply _. Defined.

Definition eclat (transactions : list Transaction) (min_support : Q)
  : result (gmap Itemset Q) :=
  let n := length transactions in
  if decide (n = 0) then Ok ∅ else
  let min_support_count :=
    Z.max 1 (py_int (min_support * py_float n + eps)%Q) in
  let tidsets := build_tidsets transactions in
  let frequent_singletons :=
    filter (λ p : Itemset * gset nat,
              (min_support_count ≤ Z.of_nat (size p.2))%Z)
           tidsets in
  let results : gmap Itemset (gset nat) := ∅ in
  let singleton_items :=
    merge_sort key_le (map_to_list frequent_singletons) in
  let results :=
    dfs min_support_count ∅ (list_to_set (seq 0 n)) singleton_items results in
  relative_support size results n.

(** Lines 76-94. *)
Definition rule_step (freq_itemsets : gmap Itemset Q) (min_confidence : Q)
    (itemset : Itemset) (supp_XY : Q) (antecedent_tuple : list Item)
    (rules : list Rule) : result (list Rule) :=
  let antecedent : Itemset := list_to_set antecedent_tuple in
  let consequent := itemset ∖ antecedent in
  if decide (consequent = ∅) then Ok rules else
  let supp_X := freq_itemsets !! antecedent in
  let supp_Y := freq_itemsets !! consequent in
  match supp_X, supp_Y with
  | Some supp_X, Some supp_Y =>
      if Qeq_bool supp_X 0 then Ok rules else
      confidence ← py_truediv supp_XY supp_X;
      if Qlt_le_dec confidence min_confidence then Ok rules else
      lift ← (if Qlt_le_dec 0 (supp_X * supp_Y)
              then py_truediv supp_XY (supp_X * supp_Y)
              else Ok 0%Q);
      Ok (rules ++ [mkRule antecedent consequent supp_XY confidence lift])
  | _, _ => Ok rules
  end.

(** Lines 69-95. *)
Definition generate_association_rules (freq_itemsets : gmap Itemset Q)
    (min_confidence : Q) : result (list Rule) :=
  for_each (map_to_list freq_itemsets)
    (λ '(itemset, supp_XY) rules,
       if decide (size itemset < 2) then Ok rules else
       let items := elements itemset in
       for_each (seq 1 (length items - 1))
         (λ r rules,
            for_each (combinations items r)
              (rule_step freq_itemsets min_confidence itemset supp_XY)
              rules)
         rules)
    [].

End Eclat.

(** ** The specification's vocabulary *)

(** [|{t : I ⊆ t}|]: the number of transactions that contain [I]. *)
Definition occurrences (transactions : list Transaction) (I : Itemset) : nat :=
  length (filter (λ t, I ⊆ t) transactions).

(** The absolute count threshold of the data model:
    [max(1, floor(min_support * n + ε))]. *)
Definition abs_threshold (min_support : Q) (n : nat) : Z :=
  Z.max 1 (Qfloor (min_support * inject_Z (Z.of_nat n) + eps)%Q).

(** A frequent itemset: non-empty, and contained in at least [threshold]
    transactions. *)
Definition frequent (transactions : list Transaction) (threshold : Z)
    (I : Itemset) : Prop :=
  I ≠ ∅ ∧ (threshold ≤ Z.of_nat (occurrences transactions I))%Z.

(** The set of indices of the transactions that contain [I]. *)
Definition tidset (transactions : list Transaction) (I : Itemset) : gset nat :=
  list_to_set (filter (λ p : nat * Transaction, I ⊆ p.2) (imap pair transactions)).*1.

(** Every item that occurs in some transaction. *)
Definition universe (transactions : list Transaction) : gset Item :=
  ⋃ transactions.

(** ** Invariants of the level-wise search *)

(** [M] holds exactly the frequent itemsets of size [j], with their counts. *)
Definition level (transactions : list Transaction) (threshold : Z) (j : nat)
    (M : gmap Itemset nat) : Prop :=
  ∀ I c, M !! I = Some c ↔
         size I = j ∧ c = occurrences transactions I ∧ (threshold ≤ Z.of_nat c)%Z.

(** [M] holds exactly the frequent itemsets of sizes [1] to [j]. *)
Definition levels_upto (transactions : list Transaction) (threshold : Z)
    (j : nat) (M : gmap Itemset nat) : Prop :=
  ∀ I c, M !! I = Some c ↔
         (1 ≤ size I ≤ j) ∧ c = occurrences transactions I ∧
         (threshold ≤ Z.of_nat c)%Z.

(** [M] holds exactly the frequent itemsets, with a value that [num] reads as
    the number of occurrences. *)
Definition all_frequent {V : Type} (num : V → nat)
    (transactions : list Transaction) (threshold : Z) (M : gmap Itemset V)
  : Prop :=
  ∀ I, (frequent transactions threshold I → ∃ v, M !! I = Some v) ∧
       (∀ v, M !! I = Some v →
             frequent transactions threshold I ∧ num v = occurrences transactions I).

(** What both miners are to return: exactly the frequent itemsets, each with
    its number of occurrences divided by the number of transactions. *)
Definition mining_result (transactions : list Transaction) (min_support : Q)
    (M : gmap Itemset Q) : Prop :=
  ∀ I q, M !! I = Some q ↔
         frequent transactions
                  (abs_threshold min_support (length transactions)) I ∧
         q = (py_float (occurrences transactions I) /
              py_float (length transactions))%Q.

(** ** Invariants of the depth-first search *)

(** An entry of the list [dfs] walks: a singleton with its TID-set. *)
Definition item_ok (transactions : list Transaction)
    (x : Itemset * gset nat) : Prop :=
  ∃ a : Item, x.1 = {[a]} ∧ x.2 = tidset transactions {[a]}.

(** [I] extends [prefix] by at least one of the items of [items], and is
    contained in at least [threshold] transactions. *)
Definition extends (transactions : list Transaction) (threshold : Z)
    (prefix : Itemset) (items : list (Itemset * gset nat)) (I : Itemset) : Prop :=
  ∃ S : Itemset,
    S ≠ ∅ ∧ S ⊆ ⋃ items.*1 ∧ I = prefix ∪ S ∧
    (threshold ≤ Z.of_nat (size (tidset transactions I)))%Z.

(** ** The rule generator, loop by loop

    A reading of the three nested loops without the exception monad;
    [generate_association_rules_ok] proves that the code returns exactly
    [rules_of], and [rule_step_emitted] that one turn of the innermost loop
    appends exactly [emitted]. *)

(** Lines 83-84 of [apriori.py]: the antecedent tuples tried for
    [items = list(itemset)], sizes [1] to [len(items) - 1]. *)
Definition candidate_splits (items : list Item) : list (list Item) :=
  seq 1 (length items - 1) ≫= combinations items.

(** The rule appended for one antecedent tuple, if any. *)
Definition emitted (freq_itemsets : gmap Itemset Q) (min_confidence : Q)
    (itemset : Itemset) (supp_XY : Q) (antecedent_tuple : list Item)
  : list Rule :=
  let A : Itemset := list_to_set antecedent_tuple in
  let C := itemset ∖ A in
  match freq_itemsets !! A, freq_itemsets !! C with
  | Some supp_X, Some supp_Y =>
      if decide (C = ∅) then [] else
      if Qeq_bool supp_X 0 then [] else
      if Qlt_le_dec (supp_XY / supp_X) min_confidence then [] else
      [mkRule A C supp_XY (supp_XY / supp_X)
              (if Qlt_le_dec 0 (supp_X * supp_Y)
               then supp_XY / (supp_X * supp_Y) else 0)%Q]
  | _, _ => []
  end.

(** The rules of a whole mapping, in the order the loops produce them. *)
Definition rules_of (freq_itemsets : gmap Itemset Q) (min_confidence : Q)
  : list Rule :=
  map_to_list freq_itemsets ≫= λ p,
    if decide (size p.1 < 2) then []
    else candidate_splits (elements p.1) ≫=
           emitted freq_itemsets min_confidence p.1 p.2.

(** ** Scenarios of the specification *)

(** Scenarios 1 and 2: four transactions over [a], [b], [c]. *)
Definition scenario_1 : list Transaction :=
  [ {["a"%string; "b"%string]};
    {["a"%string; "b"%string; "c"%string]};
    {["a"%string]};
    {["b"%string; "c"%string]} ].

(** Scenario 3: [{a, b}] with support 0.5, [{a}] and [{b}] with 0.75. *)
Definition scenario_3 : gmap Itemset Q :=
  <[ ({["a"%string; "b"%string]} : Itemset) := (1 # 2)%Q ]>
    (<[ ({["a"%string]} : Itemset) := (3 # 4)%Q ]>
       {[ ({["b"%string]} : Itemset) := (3 # 4)%Q ]}).

(** Scenario 5: a single transaction [{x, y, z}]. *)
Definition scenario_5 : list Transaction :=
  [ {["x"%string; "y"%string; "z"%string]} ].

(** ** The timing harness

    [time.perf_counter()] is read twice; the two readings are parameters.
    A fault of the miner or of the rule generator is the harness's fault:
    nothing is caught. *)

Record TimedResult : Type := mkTimedResult {
  frequent_itemsets : gmap Itemset Q;
  rules : list Rule;
  time_ms : Q
}.

(** [apriori.py], lines 107-119. *)
Definition run_apriori_with_timing (fuel : nat) (start end_ : Q)
    (transactions : list Transaction) (min_support min_confidence : Q)
  : option (result TimedResult) :=
  match Apriori.apriori fuel transactions min_support with
  | None => None
  | Some outcome =>
      Some (freq ← outcome;
            rules ← Apriori.generate_association_rules freq min_confidence;
            Ok (mkTimedResult freq rules ((end_ - start) * 1000)%Q))
  end.

(** [eclat.py], lines 98-110. *)
Definition run_eclat_with_timing (start end_ : Q)
    (transactions : list Transaction) (min_support min_confidence : Q)
  : result TimedResult :=
  freq ← Eclat.eclat transactions min_support;
  rules ← Eclat.generate_association_rules freq min_confidence;
  Ok (mkTimedResult freq rules ((end_ - start) * 1000)%Q).

(** ** The recommendation panel of [app.py] *)

Module App.

(** Lines 243-249. *)
Definition strength_label (conf : Q) : string :=
  if Qle_bool (7 # 10) conf then "Strong"%string
  else if Qle_bool (1 # 2) conf then "Moderate"%string
  else "Weak"%string.

(** [list.sort(key=lambda r: r["confidence"], reverse=True)] is stable:
    rules of equal confidence keep their order.  The sorted list is
    therefore determined, and a stable insertion sort computes it: an
    earlier rule is put before the first later rule whose confidence is
    not larger. *)
Fixpoint insert_by_confidence (r : Rule) (sorted : list Rule) : list Rule :=
  match sorted with
  | [] => [r]
  | y :: sorted' =>
      if Qlt_le_dec (confidence r) (confidence y)
      then y :: insert_by_confidence r sorted'
      else r :: y :: sorted'
  end.

Definition sort_by_confidence_desc (l : list Rule) : list Rule :=
  foldr insert_by_confidence [] l.

(** Lines 269-276: the rules listed for [selected_product]. *)
Definition recommendations (selected_product : Item)
    (rules_source : list Rule) : list Rule :=
  let related_rules :=
    filter (λ r, selected_product ∈ antecedent r) rules_source in
  let related_rules := sort_by_confidence_desc related_rules in
  take 10 related_rules.

End App.

(** ** Preprocessing ([preprocessing/cleaner.py])

    [report] is a dict with a fixed set of keys, read here as a record.  The
    standardisation [str(item).strip().lower()] is a parameter: what follows
    holds for any function on strings. *)

Record Report : Type := mkReport {
  total_transactions_before : nat;
  empty_transactions : nat;
  single_item_transactions : nat;
  duplicate_items_instances : nat;
  invalid_items_instances : nat;
  total_transactions_after : nat;
  total_items_after : nat;
  unique_products_after : nat
}.

(** [report[key] += 1] and [report[key] = v], key by key. *)
Definition incr_empty (r : Report) : Report :=
  mkReport (total_transactions_before r) (empty_transactions r + 1)
           (single_item_transactions r) (duplicate_items_instances r)
           (invalid_items_instances r) (total_transactions_after r)
           (total_items_after r) (unique_products_after r).

Definition incr_single (r : Report) : Report :=
  mkReport (total_transactions_before r) (empty_transactions r)
           (single_item_transactions r + 1) (duplicate_items_instances r)
           (invalid_items_instances r) (total_transactions_after r)
           (total_items_after r) (unique_products_after r).

Definition incr_duplicate (r : Report) : Report :=
  mkReport (total_transactions_before r) (empty_transactions r)
           (single_item_transactions r) (duplicate_items_instances r + 1)
           (invalid_items_instances r) (total_transactions_after r)
           (total_items_after r) (unique_products_after r).

Definition incr_invalid (r : Report) : Report :=
  mkReport (total_transactions_before r) (empty_transactions r)
           (single_item_transactions r) (duplicate_items_instances r)
           (invalid_items_instances r + 1) (total_transactions_after r)
           (total_items_after r) (unique_products_after r).

Definition set_after (r : Report) (transactions items products : nat) : Report :=
  mkReport (total_transactions_before r) (empty_transactions r)
           (single_item_transactions r) (duplicate_items_instances r)
           (invalid_items_instances r) transactions items products.

Section Preprocess.
Variable standardize : string → string.

(** Lines 74-90: one turn of the loop over the items of a transaction. *)
Definition clean_item (valid_products : gset string)
    (st : list string * gset string * Report) (item : string)
  : list string * gset string * Report :=
  let '(standardized, seen, report) := st in
  let item_clean := standardize item in
  if decide (item_clean = ""%string) then st
  else if decide (item_clean ∉ valid_products) then
    (standardized, seen, incr_invalid report)
  else if decide (item_clean ∈ seen) then
    (standardized, seen, incr_duplicate report)
  else (standardized ++ [item_clean], {[item_clean]} ∪ seen, report).

(** Lines 70-102: one turn of the loop over the raw transactions. *)
Definition clean_transaction (valid_products : gset string)
    (st : list Transaction * Report) (items : list string)
  : list Transaction * Report :=
  let '(cleaned_transactions, report) := st in
  let '(standardized, seen, report) :=
    foldl (clean_item valid_products) ([], ∅, report) items in
  if decide (length standardized = 0) then
    (cleaned_transactions, incr_empty report)
  else if decide (length standardized = 1) then
    (cleaned_transactions, incr_single report)
  else (cleaned_transactions ++ [list_to_set standardized], report).

(** Lines 47-109. *)
Definition preprocess_transactions (raw_transactions : list (list string))
    (valid_products : gset string) : list Transaction * Report :=
  let report := mkReport (length raw_transactions) 0 0 0 0 0 0 0 in
  let '(cleaned_transactions, report) :=
    foldl (clean_transaction valid_products) ([], report) raw_transactions in
  let all_items : gset string :=
    if decide (cleaned_transactions = []) then ∅
    else ⋃ cleaned_transactions in
  (cleaned_transactions,
   set_after report (length cleaned_transactions)
             (sum_list (size <$> cleaned_transactions))
             (size all_items)).

(** The items a raw transaction is left with: standardised, not blank, and
    valid products. *)
Definition kept_items (valid_products : gset string) (items : list string)
  : list string :=
  filter (λ s, s ≠ ""%string ∧ s ∈ valid_products) (standardize <$> items).

(** The occurrences the report counts as invalid. *)
Definition invalid_items (valid_products : gset string)
    (items : list string) : list string :=
  filter (λ s, s ≠ ""%string ∧ s ∉ valid_products) (standardize <$> items).

(** The occurrences that standardise to the empty string. *)
Definition blank_items (items : list string) : list string :=
  filter (λ s, s = ""%string) (standardize <$> items).

Definition clean_set (valid_products : gset string) (items : list string)
  : Transaction :=
  list_to_set (kept_items valid_products items).
End Preprocess.

(** A small catalogue and a raw log with a blank item, a repeated item, an
    unlisted item and a transaction left with a single item. *)
Definition sample_products : gset string :=
  {[ "milk"%string; "bread"%string; "eggs"%string ]}.

Definition sample_raw : list (list string) :=
  [ [ "milk"%string; "bread"%string; "milk"%string ];
    [ "eggs"%string; "caviar"%string ];
    [ ""%string ];
    [ "bread"%string; "eggs"%string; "milk"%string ] ].

(** * Proofs *)

(** ** Loops *)

Section Loops.
Context {A S : Type}.

Lemma foldl_inv (Inv : list A → S → Prop) (f : S → A → S) (l : list A) (s : S) :
  Inv [] s →
  (∀ pre x suf s, l = pre ++ x :: suf → Inv pre s → Inv (pre ++ [x]) (f s x)) →
  Inv l (foldl f s l).
Proof.
  intros H0 Hstep.
  enough (G : ∀ suf pre s, l = pre ++ suf → Inv pre s →
                           Inv (pre ++ suf) (foldl f s suf)).
  { apply (G l [] s); done. }
  induction suf as [|x suf IH]; intros pre s' Hl Hpre; simpl.
  - by rewrite app_nil_r.
  - rewrite cons_middle, app_assoc. apply IH.
    + by rewrite <- app_assoc.
    + by eapply Hstep.
Qed.

Lemma for_each_inv (Inv : list A → S → Prop) (body : A → S → result S)
    (l : list A) (s : S) :
  Inv [] s →
  (∀ pre x suf s, l = pre ++ x :: suf → Inv pre s →
                  ∃ s', body x s = Ok s' ∧ Inv (pre ++ [x]) s') →
  ∃ s', for_each l body s = Ok s' ∧ Inv l s'.
Proof.
  intros H0 Hstep.
  enough (G : ∀ suf pre s, l = pre ++ suf → Inv pre s →
              ∃ s', for_each suf body s = Ok s' ∧ Inv (pre ++ suf) s').
  { apply (G l [] s); done. }
  induction suf as [|x suf IH]; intros pre s' Hl Hpre; simpl.
  - exists s'. by rewrite app_nil_r.
  - destruct (Hstep pre x suf s' Hl Hpre) as (s'' & -> & Hs''). simpl.
    rewrite cons_middle, app_assoc. apply IH; [|done].
    by rewrite <- app_assoc.
Qed.

Lemma for_each_app (body : A → S → result S) (l1 l2 : list A) (s : S) :
  for_each (l1 ++ l2) body s = s' ← for_each l1 body s; for_each l2 body s'.
Proof.
  revert s. induction l1 as [|x l1 IH]; intros s; simpl; [done|].
  destruct (body x s); simpl; [apply IH|done].
Qed.
End Loops.

(** ** Occurrence counts and TID-sets *)

Section Support.
Implicit Types (T : list Transaction) (I J : Itemset) (t : Transaction).

Lemma occurrences_nil I : occurrences [] I = 0.
Proof. done. Qed.

Lemma occurrences_snoc T t I :
  occurrences (T ++ [t]) I =
  occurrences T I + (if decide (I ⊆ t) then 1 else 0).
Proof.
  unfold occurrences. rewrite filter_app, length_app. f_equal.
  rewrite filter_cons, filter_nil. by case_decide.
Qed.

Lemma occurrences_le_length T I : occurrences T I ≤ length T.
Proof. apply length_filter. Qed.

Lemma occurrences_anti T I J : I ⊆ J → occurrences T J ≤ occurrences T I.
Proof.
  intros HIJ. induction T as [|t T IH]; [done|].
  unfold occurrences in *. rewrite !filter_cons.
  repeat case_decide; simpl; try lia. set_solver.
Qed.

Lemma occurrences_pos_elem T I :
  0 < occurrences T I → ∃ t, t ∈ T ∧ I ⊆ t.
Proof.
  unfold occurrences. intros Hpos.
  destruct (filter (λ t, I ⊆ t) T) as [|t l] eqn:E; [simpl in Hpos; lia|].
  assert (Ht : t ∈ filter (λ t, I ⊆ t) T) by (rewrite E; left).
  apply list_elem_of_filter in Ht. naive_solver.
Qed.

Lemma occurrences_pos_universe T I :
  0 < occurrences T I → I ⊆ universe T.
Proof.
  intros (t & Ht & HI)%occurrences_pos_elem. unfold universe.
  intros x Hx. apply elem_of_union_list. exists t. split; [done|]. by apply HI.
Qed.

Lemma frequent_anti T msc I J :
  I ≠ ∅ → I ⊆ J → frequent T msc J → frequent T msc I.
Proof.
  intros HI HIJ [_ HJ]. split; [done|].
  pose proof (occurrences_anti T I J HIJ). lia.
Qed.

Lemma frequent_size T msc I :
  (1 ≤ msc)%Z → frequent T msc I → size I ≤ size (universe T).
Proof.
  intros Hmsc [_ HI]. apply subseteq_size, occurrences_pos_universe. lia.
Qed.

Lemma tidset_nil I : tidset [] I = ∅.
Proof. done. Qed.

Lemma tidset_snoc T t I :
  tidset (T ++ [t]) I =
  tidset T I ∪ (if decide (I ⊆ t) then {[length T]} else ∅).
Proof.
  unfold tidset. rewrite imap_app, filter_app, fmap_app, list_to_set_app_L.
  f_equal. simpl. rewrite filter_cons, filter_nil. simpl.
  rewrite Nat.add_0_r. case_decide; set_solver.
Qed.

Lemma tidset_bound T I tid : tid ∈ tidset T I → tid < length T.
Proof.
  induction T as [|t T IH] using rev_ind; [by rewrite tidset_nil|].
  rewrite tidset_snoc, length_app. simpl.
  intros [Hin|Hin]%elem_of_union; [apply IH in Hin; lia|].
  case_decide; set_solver by lia.
Qed.

Lemma size_tidset T I : size (tidset T I) = occurrences T I.
Proof.
  induction T as [|t T IH] using rev_ind; [done|].
  rewrite tidset_snoc, occurrences_snoc, size_union, IH.
  - case_decide; [by rewrite size_singleton|by rewrite size_empty].
  - intros tid Hin%tidset_bound. case_decide; set_solver by lia.
Qed.

Lemma tidset_union T I J : tidset T (I ∪ J) = tidset T I ∩ tidset T J.
Proof.
  induction T as [|t T IH] using rev_ind; [set_solver|].
  rewrite !tidset_snoc, IH.
  assert (Hb : ∀ K, length T ∉ tidset T K).
  { intros K Hin%tidset_bound. lia. }
  pose proof (Hb I). pose proof (Hb J).
  repeat case_decide; set_solver.
Qed.

Lemma tidset_subseteq_range T I : tidset T I ⊆ list_to_set (seq 0 (length T)).
Proof.
  intros tid Hin%tidset_bound. apply elem_of_list_to_set, elem_of_seq. lia.
Qed.
End Support.

(** ** Combinations *)

Section Combinations.
Context {A : Type}.
Implicit Types (l c : list A) (r : nat).

Lemma combinations_0 l : combinations l 0 = [[]].
Proof. by destruct l. Qed.

Lemma elem_of_combinations l r c :
  c ∈ combinations l r ↔ c `sublist_of` l ∧ length c = r.
Proof.
  revert r c. induction l as [|x l IH]; intros r c.
  - destruct r; simpl.
    + rewrite list_elem_of_singleton. split; [by intros ->|].
      intros [H%sublist_nil_r _]. done.
    + split; [by intros ?%elem_of_nil|].
      intros [->%sublist_nil_r Hlen]. done.
  - destruct r as [|r]; simpl.
    + rewrite list_elem_of_singleton. split.
      * intros ->. split; [apply sublist_nil_l|done].
      * intros [_ Hlen]. by destruct c.
    + rewrite elem_of_app, list_elem_of_fmap. setoid_rewrite IH. split.
      * intros [(c' & -> & Hsub & Hlen)|[Hsub Hlen]].
        -- split; [by apply sublist_skip|simpl; lia].
        -- split; [by apply sublist_cons|done].
      * intros [Hsub Hlen]. apply sublist_cons_r in Hsub as [Hsub|(c' & -> & Hsub)].
        -- by right.
        -- left. exists c'. simpl in Hlen. split_and!; [done|done|lia].
Qed.
End Combinations.

Section CombinationsSets.
Implicit Types (l c : list Item) (X Y : Itemset) (r : nat).

Lemma sublist_of_subset l Y :
  NoDup l → Y ⊆ list_to_set l →
  ∃ c, c `sublist_of` l ∧ list_to_set c = Y ∧ length c = size Y.
Proof.
  intros Hnd HY. exists (filter (λ x, x ∈ Y) l).
  assert (Hset : list_to_set (filter (λ x, x ∈ Y) l) = Y).
  { apply set_eq. intros x.
    rewrite elem_of_list_to_set, list_elem_of_filter.
    split; [naive_solver|]. intros Hx. split; [done|].
    apply (elem_of_list_to_set (C:=gset string)), HY, Hx. }
  split_and!; [apply sublist_filter|done|].
  rewrite <- (size_list_to_set (C:=gset string)) by (by apply NoDup_filter).
  by rewrite Hset.
Qed.

Lemma subset_of_sublist l c :
  NoDup l → c `sublist_of` l →
  (list_to_set c : Itemset) ⊆ list_to_set l ∧
  size (list_to_set c : Itemset) = length c.
Proof.
  intros Hnd Hsub. split.
  - intros x. rewrite !elem_of_list_to_set. intros Hx. by eapply elem_of_sublist.
  - apply size_list_to_set. by eapply sublist_NoDup.
Qed.

(** The [r]-combinations of the items of [X] are its subsets of size [r]. *)
Lemma combinations_subsets X r Y :
  (∃ c, c ∈ combinations (elements X) r ∧ list_to_set c = Y) ↔
  Y ⊆ X ∧ size Y = r.
Proof.
  pose proof (NoDup_elements X) as Hnd.
  assert (HX : list_to_set (elements X) = X) by apply list_to_set_elements_L.
  split.
  - intros (c & [Hsub Hlen]%elem_of_combinations & <-).
    destruct (subset_of_sublist _ _ Hnd Hsub) as [H1 H2].
    rewrite HX in H1. split; [done|lia].
  - intros [HY Hsz]. rewrite <- HX in HY.
    destruct (sublist_of_subset _ _ Hnd HY) as (c & Hsub & Hset & Hlen).
    exists c. split; [|done]. apply elem_of_combinations. split; [done|lia].
Qed.
End CombinationsSets.

(** ** Apriori: counting *)

Section AprioriCounting.
Implicit Types (T : list Transaction) (I J : Itemset) (t : Transaction).

Lemma default_of_count (o : option nat) (k : nat) :
  (∀ c, o = Some c ↔ c = k ∧ 0 < c) → default 0 o = k.
Proof.
  intros H. destruct o as [c|] eqn:E; simpl.
  - by apply (proj1 (H c)).
  - destruct (decide (k = 0)) as [->|Hk]; [done|].
    assert (None = Some k) by (apply H; lia). done.
Qed.

Lemma count_items_step (m : gmap Item nat) t (occ : Item → nat) :
  (∀ i c, m !! i = Some c ↔ c = occ i ∧ 0 < c) →
  ∀ i c,
    foldl (λ item_counts item,
             <[item := default 0 (item_counts !! item) + 1]> item_counts)
          m (elements t) !! i = Some c ↔
    c = occ i + (if decide (i ∈ t) then 1 else 0) ∧ 0 < c.
Proof.
  intros Hm.
  pose (Inv := λ (pre : list Item) (m' : gmap Item nat),
          ∀ i c, m' !! i = Some c ↔
                 c = occ i + (if decide (i ∈ pre) then 1 else 0) ∧ 0 < c).
  assert (Hend : Inv (elements t)
            (foldl (λ item_counts item,
                      <[item := default 0 (item_counts !! item) + 1]> item_counts)
                   m (elements t))).
  { apply foldl_inv.
    - intros i c. unfold Inv. rewrite Hm. rewrite decide_False by apply not_elem_of_nil.
      by rewrite Nat.add_0_r.
    - intros pre x suf m' Hl Hpre i c. unfold Inv in Hpre.
      pose proof (NoDup_elements t) as Hnd. rewrite Hl in Hnd.
      apply NoDup_app in Hnd as (_ & Hdisj & _).
      assert (Hx : x ∉ pre) by (intros Hin; eapply Hdisj; [done|left]).
      destruct (decide (i = x)) as [->|Hne].
      + rewrite lookup_insert_eq.
        rewrite (default_of_count _ (occ x)).
        2:{ intros c'. rewrite Hpre, decide_False by done.
            by rewrite Nat.add_0_r. }
        rewrite decide_True by set_solver. split; [intros [= <-]; lia|].
        intros [-> _]. done.
      + rewrite lookup_insert_ne by done. rewrite Hpre.
        destruct (decide (i ∈ pre)), (decide (i ∈ pre ++ [x])); set_solver. }
  intros i c. unfold Inv in Hend. rewrite (Hend i c).
  destruct (decide (i ∈ elements t)), (decide (i ∈ t)); set_solver.
Qed.

Lemma count_items_lookup T (i : Item) (c : nat) :
  Apriori.count_items T !! i = Some c ↔
  c = occurrences T {[i]} ∧ 0 < c.
Proof.
  unfold Apriori.count_items. revert i c.
  induction T as [|t T IH] using rev_ind; intros i c.
  - simpl. rewrite lookup_empty, occurrences_nil. split; [done|lia].
  - rewrite foldl_app. simpl.
    rewrite (count_items_step _ t (λ i, occurrences T {[i]}) IH).
    rewrite occurrences_snoc.
    destruct (decide (i ∈ t)), (decide ({[i]} ⊆ t)); set_solver.
Qed.

(** The first level: the frequent singletons, with their counts. *)
Lemma first_level_lookup T (msc : Z) I (c : nat) :
  (1 ≤ msc)%Z →
  kmap (M2 := gmap Itemset) singleton
       (filter (λ p : Item * nat, (msc ≤ Z.of_nat p.2)%Z)
               (Apriori.count_items T)) !! I = Some c ↔
  size I = 1 ∧ c = occurrences T I ∧ (msc ≤ Z.of_nat c)%Z.
Proof.
  intros Hmsc. rewrite lookup_kmap_Some by apply _.
  setoid_rewrite map_lookup_filter_Some. setoid_rewrite count_items_lookup.
  simpl. split.
  - intros (i & -> & [-> _] & Hc). by rewrite size_singleton.
  - intros (Hsz & -> & Hc). apply size_1_elem_of in Hsz as [i Hi].
    apply leibniz_equiv in Hi as ->. exists i. split_and!; [done|done|lia|done].
Qed.

Lemma count_support_step (cands : gset Itemset) t
    (m : gmap Itemset nat) (occ : Itemset → nat) :
  (∀ c v, m !! c = Some v ↔ c ∈ cands ∧ v = occ c) →
  ∃ m',
    for_each (elements cands)
      (λ c counts,
         if decide (c ⊆ t) then
           match counts !! c with
           | Some v => Ok (<[c := v + 1]> counts)
           | None => Raise KeyError
           end
         else Ok counts) m = Ok m' ∧
    ∀ c v, m' !! c = Some v ↔
           c ∈ cands ∧ v = occ c + (if decide (c ⊆ t) then 1 else 0).
Proof.
  intros Hm.
  pose (Inv := λ (pre : list Itemset) (m' : gmap Itemset nat),
          ∀ c v, m' !! c = Some v ↔
                 c ∈ cands ∧
                 v = occ c + (if decide (c ∈ pre ∧ c ⊆ t) then 1 else 0)).
  edestruct (for_each_inv Inv) as (m' & Hrun & Hend); [| |exists m'; split; [exact Hrun|]].
  - intros c v. unfold Inv. rewrite Hm. rewrite decide_False; [by rewrite Nat.add_0_r|].
    intros [?%elem_of_nil _]. done.
  - intros pre x suf m' Hl Hpre. unfold Inv in Hpre |- *.
    pose proof (NoDup_elements cands) as Hnd. rewrite Hl in Hnd.
    apply NoDup_app in Hnd as (_ & Hdisj & _).
    assert (Hx : x ∉ pre) by (intros Hin; eapply Hdisj; [done|left]).
    assert (Hxc : x ∈ cands).
    { apply elem_of_elements. rewrite Hl. set_solver. }
    case_decide as Hsub.
    + assert (Hlx : m' !! x = Some (occ x)).
      { apply Hpre. split; [done|]. rewrite decide_False by tauto. lia. }
      rewrite Hlx. eexists. split; [done|]. intros c v.
      destruct (decide (c = x)) as [->|Hne].
      * rewrite lookup_insert_eq. rewrite decide_True by set_solver.
        split; [by intros [= <-]|]. by intros [_ ->].
      * rewrite lookup_insert_ne by done. rewrite Hpre.
        destruct (decide (c ∈ pre ∧ c ⊆ t)), (decide (c ∈ pre ++ [x] ∧ c ⊆ t));
          set_solver.
    + exists m'. split; [done|]. intros c v. rewrite Hpre.
      destruct (decide (c ∈ pre ∧ c ⊆ t)), (decide (c ∈ pre ++ [x] ∧ c ⊆ t));
        set_solver.
  - intros c v. unfold Inv in Hend. rewrite (Hend c v).
    destruct (decide (c ∈ elements cands ∧ c ⊆ t)), (decide (c ⊆ t)); set_solver.
Qed.

(** Counting never raises, and maps each candidate, and nothing else, to
    its number of occurrences. *)
Lemma count_support_ok T (cands : gset Itemset) :
  ∃ counts,
    Apriori.count_support T cands = Ok counts ∧
    ∀ c v, counts !! c = Some v ↔ c ∈ cands ∧ v = occurrences T c.
Proof.
  unfold Apriori.count_support.
  induction T as [|t T IH] using rev_ind.
  - simpl. eexists. split; [done|]. intros c v.
    rewrite lookup_gset_to_gmap_Some, occurrences_nil. naive_solver.
  - destruct IH as (m & Hrun & Hm). rewrite for_each_app, Hrun. simpl.
    destruct (count_support_step cands t m (occurrences T) Hm)
      as (m' & -> & Hm').
    exists m'. split; [done|]. intros c v.
    rewrite Hm', occurrences_snoc. done.
Qed.
End AprioriCounting.

(** ** Apriori: candidate generation *)

Section AprioriCandidates.
Implicit Types (Lk : gmap Itemset nat) (I J a b : Itemset) (k : nat).

Lemma all_subsets_frequent_spec Lk I k :
  Apriori.all_subsets_frequent Lk I k = true ↔
  ∀ J, J ⊆ I → size J = k - 1 → is_Some (Lk !! J).
Proof.
  unfold Apriori.all_subsets_frequent. rewrite forallb_forall. split.
  - intros H J HJ Hsz.
    destruct (proj2 (combinations_subsets I (k - 1) J)) as (c & Hc & <-); [done|].
    apply list_elem_of_In, H in Hc. by apply bool_decide_eq_true in Hc.
  - intros H c Hc%list_elem_of_In. apply bool_decide_eq_true.
    destruct (proj1 (combinations_subsets I (k - 1) (list_to_set c))) as [? ?];
      [by exists c|]. by apply H.
Qed.

Lemma join_row_spec Lk k a rest (cands : gset Itemset) I :
  I ∈ Apriori.join_row Lk k a rest cands ↔
  I ∈ cands ∨
  ∃ b, b ∈ rest ∧ I = a ∪ b ∧ size I = k ∧
       Apriori.all_subsets_frequent Lk I k = true.
Proof.
  unfold Apriori.join_row. revert cands.
  induction rest as [|b rest IH]; intros cands; simpl.
  - split; [by left|]. intros [?|(b & ?%elem_of_nil & _)]; done.
  - rewrite IH. clear IH. split.
    + intros [Hin|(b' & Hb' & Hrest)].
      * case_decide as Hsz; [|by left].
        destruct (Apriori.all_subsets_frequent Lk (a ∪ b) k) eqn:E; [|by left].
        apply elem_of_union in Hin as [->%elem_of_singleton|Hin]; [|by left].
        right. exists b. split_and!; [left|done|done|done].
      * right. exists b'. split; [by right|done].
    + intros [Hin|(b' & Hb' & -> & Hsz & Hall)].
      * left. case_decide; [|done].
        destruct (Apriori.all_subsets_frequent Lk (a ∪ b) k); set_solver.
      * apply elem_of_cons in Hb' as [->|Hb'].
        -- left. rewrite decide_True by done. rewrite Hall. set_solver.
        -- right. exists b'. done.
Qed.

(** [a] occurs strictly before [b] in [l]. *)
Lemma join_pairs_spec Lk k (l : list Itemset) (cands : gset Itemset) I :
  I ∈ Apriori.join_pairs Lk k l cands ↔
  I ∈ cands ∨
  ∃ l1 a l2 b, l = l1 ++ a :: l2 ∧ b ∈ l2 ∧ I = a ∪ b ∧ size I = k ∧
               Apriori.all_subsets_frequent Lk I k = true.
Proof.
  revert cands. induction l as [|x l IH]; intros cands; simpl.
  - split; [by left|]. intros [?|(l1 & a & l2 & b & Hl & _)]; [done|].
    by destruct l1.
  - rewrite IH, join_row_spec. clear IH. split.
    + intros [[Hin|(b & Hb & Hrest)]|(l1 & a & l2 & b & -> & Hrest)].
      * by left.
      * right. exists [], x, l, b. done.
      * right. exists (x :: l1), a, l2, b. done.
    + intros [Hin|(l1 & a & l2 & b & Hl & Hb & Hrest)]; [by left; left|].
      destruct l1 as [|y l1]; simplify_eq/=.
      * left. right. exists b. done.
      * right. exists l1, a, l2, b. done.
Qed.

Lemma elem_of_ordered (l : list Itemset) a b :
  a ∈ l → b ∈ l → a ≠ b →
  (∃ l1 l2, l = l1 ++ a :: l2 ∧ b ∈ l2) ∨
  (∃ l1 l2, l = l1 ++ b :: l2 ∧ a ∈ l2).
Proof.
  intros Ha Hb Hne. induction l as [|x l IH]; [by apply elem_of_nil in Ha|].
  apply elem_of_cons in Ha as [->|Ha]; apply elem_of_cons in Hb as [->|Hb].
  - done.
  - left. by exists [], l.
  - right. by exists [], l.
  - destruct (IH Ha Hb) as [(l1 & l2 & -> & ?)|(l1 & l2 & -> & ?)].
    + left. by exists (x :: l1), l2.
    + right. by exists (x :: l1), l2.
Qed.

(** The candidates of size [k]: the unions of two distinct itemsets of the
    previous level that have [k] items and whose subsets of size [k - 1]
    are all in the previous level. *)
Lemma generate_candidates_spec Lk k I :
  I ∈ Apriori.generate_candidates Lk k ↔
  ∃ a b, a ∈ dom Lk ∧ b ∈ dom Lk ∧ a ≠ b ∧ I = a ∪ b ∧ size I = k ∧
         ∀ J, J ⊆ I → size J = k - 1 → J ∈ dom Lk.
Proof.
  unfold Apriori.generate_candidates. rewrite join_pairs_spec.
  assert (Hdom : ∀ a, a ∈ (map_to_list Lk).*1 ↔ a ∈ dom Lk).
  { intros a. rewrite elem_of_dom, list_elem_of_fmap. split.
    - intros ([a' v] & -> & Hin%elem_of_map_to_list). by exists v.
    - intros [v Hv]. exists (a, v). split; [done|]. by apply elem_of_map_to_list. }
  pose proof (NoDup_fst_map_to_list Lk) as Hnd.
  setoid_rewrite all_subsets_frequent_spec.
  setoid_rewrite <- elem_of_dom. split.
  - intros [?%not_elem_of_empty|(l1 & a & l2 & b & Hl & Hb & HI & Hsz & Hall)];
      [done|].
    rewrite Hl in Hnd. apply NoDup_app in Hnd as (_ & _ & Hnd).
    apply NoDup_cons in Hnd as [Hab _].
    exists a, b. split_and!; try done.
    + apply Hdom. rewrite Hl. set_solver.
    + apply Hdom. rewrite Hl. set_solver.
    + by intros ->.
  - intros (a & b & Ha & Hb & Hne & HI & Hsz & Hall). right.
    apply Hdom in Ha, Hb.
    destruct (elem_of_ordered _ a b Ha Hb Hne)
      as [(l1 & l2 & Hl & Hin)|(l1 & l2 & Hl & Hin)].
    + exists l1, a, l2, b. done.
    + exists l1, b, l2, a. split_and!; try done. set_solver.
Qed.
End AprioriCandidates.

(** ** Apriori: the level-wise loop *)

Section AprioriLoop.
Implicit Types (T : list Transaction) (I J : Itemset) (k j : nat).
Implicit Types (L Lk : gmap Itemset nat).

Lemma subset_of_size I j :
  j ≤ size I → ∃ J, J ⊆ I ∧ size J = j.
Proof.
  intros Hj. exists (list_to_set (take j (elements I))). split.
  - intros x. rewrite elem_of_list_to_set. intros Hx%elem_of_take.
    apply elem_of_elements. destruct Hx as (i & Hx & _).
    by eapply list_elem_of_lookup_2.
  - rewrite size_list_to_set.
    + rewrite length_take. unfold size, set_size in Hj. simpl in Hj. lia.
    + eapply sublist_NoDup; [apply (NoDup_elements I)|apply sublist_take].
Qed.

Lemma two_cover I k :
  size I = k → 2 ≤ k →
  ∃ a b, a ≠ b ∧ I = a ∪ b ∧ size a = k - 1 ∧ size b = k - 1 ∧ a ⊆ I ∧ b ⊆ I.
Proof.
  intros Hsz Hk.
  destruct (size_pos_elem_of I) as [x Hx]; [lia|].
  assert (Hsx : size (I ∖ {[x]}) = k - 1).
  { rewrite size_difference by set_solver. rewrite size_singleton. lia. }
  destruct (size_pos_elem_of (I ∖ {[x]})) as [y Hy]; [lia|].
  assert (Hsy : size (I ∖ {[y]}) = k - 1).
  { rewrite size_difference by set_solver. rewrite size_singleton. lia. }
  exists (I ∖ {[x]}), (I ∖ {[y]}). split_and!; [| |done|done|set_solver|set_solver].
  - intros Heq. rewrite Heq in Hy. set_solver.
  - apply set_eq. intros z. rewrite elem_of_union, !elem_of_difference,
      !elem_of_singleton. split; [|tauto]. intros Hz.
    destruct (decide (z = x)) as [->|]; [|tauto]. right. split; [done|].
    intros ->. set_solver.
Qed.

Lemma level_next T msc Lk k counts :
  (1 ≤ msc)%Z → 2 ≤ k →
  level T msc (k - 1) Lk →
  (∀ c v, counts !! c = Some v ↔
          c ∈ Apriori.generate_candidates Lk k ∧ v = occurrences T c) →
  level T msc k
        (filter (λ p : Itemset * nat, (msc ≤ Z.of_nat p.2)%Z) counts).
Proof.
  intros Hmsc Hk HLk Hcounts I c.
  rewrite map_lookup_filter_Some, Hcounts, generate_candidates_spec. simpl.
  split.
  - intros [[(a & b & _ & _ & _ & _ & Hsz & _) ->] Hc]. done.
  - intros (Hsz & -> & Hc). split_and!; [|done|done].
    assert (Hsub : ∀ J, J ⊆ I → size J = k - 1 → J ∈ dom Lk).
    { intros J HJ HszJ. apply elem_of_dom. exists (occurrences T J).
      apply HLk. split_and!; [done|done|].
      pose proof (occurrences_anti T J I HJ). lia. }
    destruct (two_cover I k Hsz Hk) as (a & b & Hne & HI & Ha & Hb & Hai & Hbi).
    exists a, b. split_and!; auto.
Qed.

Lemma level_empty_no_larger T msc Lk j I :
  1 ≤ j → level T msc j Lk → Lk = ∅ →
  (msc ≤ Z.of_nat (occurrences T I))%Z → size I < j.
Proof.
  intros Hj HLk -> HI. apply Nat.nle_gt. intros Hle.
  destruct (subset_of_size I j Hle) as (J & HJ & HszJ).
  assert (Hl : (∅ : gmap Itemset nat) !! J = Some (occurrences T J)).
  { apply HLk. split_and!; [done|done|].
    pose proof (occurrences_anti T J I HJ). lia. }
  by rewrite lookup_empty in Hl.
Qed.

Lemma levels_upto_union T msc k L Lk' :
  2 ≤ k → levels_upto T msc (k - 1) L → level T msc k Lk' →
  levels_upto T msc k (Lk' ∪ L).
Proof.
  unfold level, levels_upto. intros Hk HL HLk' I c.
  rewrite lookup_union_Some_raw, HLk', HL. split.
  - intros [(Hsz & -> & Hc)|(_ & Hsz & -> & Hc)]; split_and!; auto; lia.
  - intros ([H1 H2] & -> & Hc). destruct (decide (size I = k)) as [Heq|Hne].
    + by left.
    + right. split; [|split_and!; auto; lia].
      destruct (Lk' !! I) as [c'|] eqn:E; [|done].
      apply HLk' in E as [? _]. done.
Qed.

(** When a level is empty, [L] already holds every frequent itemset. *)
Lemma loop_exit T msc k L Lk :
  2 ≤ k → level T msc (k - 1) Lk → levels_upto T msc (k - 1) L → Lk = ∅ →
  all_frequent id T msc L.
Proof.
  intros Hk HLk HL HE I. split.
  - intros [HI Hc]. exists (occurrences T I). apply HL.
    pose proof (level_empty_no_larger T msc Lk (k - 1) I ltac:(lia) HLk HE Hc).
    assert (size I ≠ 0)
      by (rewrite size_non_empty_iff; by intros ?%leibniz_equiv).
    split_and!; [lia|lia|done|done].
  - intros c (Hsz & -> & Hc)%HL. split; [|done]. split; [|done].
    intros ->. rewrite size_empty in Hsz. lia.
Qed.

(** A non-empty level [k - 1] bounds [k] by the number of distinct items. *)
Lemma level_nonempty_bound T msc k Lk :
  (1 ≤ msc)%Z → 2 ≤ k → level T msc (k - 1) Lk → Lk ≠ ∅ →
  k - 1 ≤ size (universe T).
Proof.
  intros Hmsc Hk HLk HE.
  apply map_choose in HE as (I & c & (Hsz & -> & Hc)%HLk).
  rewrite <- Hsz. apply (frequent_size T msc); [done|]. split; [|done].
  intros ->. rewrite size_empty in Hsz. lia.
Qed.

(** With enough fuel the loop stops because a level is empty, and then [L]
    holds exactly the frequent itemsets with their counts. *)
Lemma apriori_loop_ok T msc fuel k L Lk :
  (1 ≤ msc)%Z → 2 ≤ k →
  level T msc (k - 1) Lk → levels_upto T msc (k - 1) L →
  size (universe T) + 2 ≤ fuel + k →
  ∃ L', Apriori.apriori_loop fuel T msc L Lk k = Some (Ok L') ∧
        all_frequent id T msc L'.
Proof.
  intros Hmsc. revert k L Lk.
  induction fuel as [|fuel IH]; intros k L Lk Hk HLk HL Hfuel;
    destruct (decide (Lk = ∅)) as [HE|HE].
  - exists L. simpl. rewrite decide_True by done.
    split; [done|]. by eapply loop_exit.
  - pose proof (level_nonempty_bound T msc k Lk Hmsc Hk HLk HE). lia.
  - exists L. simpl. rewrite decide_True by done.
    split; [done|]. by eapply loop_exit.
  - simpl. rewrite decide_False by done.
    destruct (count_support_ok T (Apriori.generate_candidates Lk k))
      as (counts & -> & Hcounts).
    pose proof (level_next T msc Lk k counts Hmsc Hk HLk Hcounts) as HLk'.
    apply IH.
    + lia.
    + by replace (k + 1 - 1) with k by lia.
    + replace (k + 1 - 1) with k by lia. by apply levels_upto_union.
    + lia.
Qed.
End AprioriLoop.

(** ** The threshold and the relative supports *)

Section Threshold.

(** Truncation and floor differ on negative numbers only, where the
    clamp to [1] hides the difference. *)
Lemma max_1_py_int (x : Q) : Z.max 1 (py_int x) = Z.max 1 (Qfloor x).
Proof.
  destruct x as [a d]. unfold py_int, Qfloor. simpl.
  destruct (decide (0 ≤ a)%Z) as [Ha|Ha].
  - by rewrite Z.quot_div_nonneg by lia.
  - assert (a ÷ Z.pos d ≤ 0)%Z.
    { apply Z.quot_le_upper_bound; lia. }
    assert (a / Z.pos d < 0)%Z.
    { apply Z.div_lt_upper_bound; lia. }
    lia.
Qed.

Lemma min_support_count_eq (min_support : Q) (n : nat) :
  Z.max 1 (py_int (min_support * py_float n + eps)%Q) =
  abs_threshold min_support n.
Proof. apply max_1_py_int. Qed.

Lemma abs_threshold_pos (min_support : Q) (n : nat) :
  (1 ≤ abs_threshold min_support n)%Z.
Proof. unfold abs_threshold. lia. Qed.

Lemma py_truediv_float (a : Q) (n : nat) :
  n ≠ 0 → py_truediv a (py_float n) = Ok (a / py_float n)%Q.
Proof.
  intros Hn. unfold py_truediv.
  destruct (Qeq_bool (py_float n) 0) eqn:E; [|done].
  apply Qeq_bool_eq in E. unfold Qeq in E. simpl in E. lia.
Qed.

Lemma relative_support_ok {V : Type} (num : V → nat)
    (L : gmap Itemset V) (n : nat) :
  n ≠ 0 →
  ∃ M, relative_support num L n = Ok M ∧
       ∀ I q, M !! I = Some q ↔
              ∃ v, L !! I = Some v ∧ q = (py_float (num v) / py_float n)%Q.
Proof.
  intros Hn. unfold relative_support.
  pose (Inv := λ (pre : list (Itemset * V)) (M : gmap Itemset Q),
          ∀ I q, M !! I = Some q ↔
                 ∃ v, (I, v) ∈ pre ∧ q = (py_float (num v) / py_float n)%Q).
  edestruct (for_each_inv Inv) as (M & Hrun & Hend);
    [| |exists M; split; [exact Hrun|]].
  - intros I q. rewrite lookup_empty. split; [done|].
    intros (v & ?%elem_of_nil & _). done.
  - intros pre [J w] suf M Hl Hpre. unfold Inv in Hpre |- *.
    rewrite py_truediv_float by done. simpl. eexists. split; [done|].
    pose proof (NoDup_fst_map_to_list L) as Hnd. rewrite Hl in Hnd.
    rewrite fmap_app in Hnd. apply NoDup_app in Hnd as (_ & Hdisj & _).
    assert (HJ : ∀ v, (J, v) ∉ pre).
    { intros v Hin. eapply (Hdisj J); [|left].
      apply list_elem_of_fmap. by exists (J, v). }
    intros I q. destruct (decide (I = J)) as [->|Hne].
    + rewrite lookup_insert_eq. split.
      * intros [= <-]. exists w. split; [set_solver|done].
      * intros (v & [Hin|Hin]%elem_of_app & ->); [by apply HJ in Hin|].
        apply list_elem_of_singleton in Hin as [= ->]. done.
    + rewrite lookup_insert_ne by done. rewrite Hpre. split.
      * intros (v & Hin & ->). exists v. split; [set_solver|done].
      * intros (v & [Hin|Hin]%elem_of_app & ->); [by exists v|].
        apply list_elem_of_singleton in Hin as [= -> ->]. done.
  - intros I q. unfold Inv in Hend. rewrite Hend.
    by setoid_rewrite elem_of_map_to_list.
Qed.

Lemma mining_result_intro {V : Type} (num : V → nat) (T : list Transaction)
    (min_support : Q) (L : gmap Itemset V) (M : gmap Itemset Q) :
  all_frequent num T (abs_threshold min_support (length T)) L →
  (∀ I q, M !! I = Some q ↔
          ∃ v, L !! I = Some v ∧
               q = (py_float (num v) / py_float (length T))%Q) →
  mining_result T min_support M.
Proof.
  intros HL HM I q. rewrite HM. split.
  - intros (v & Hv & ->). apply HL in Hv as [Hf ->]. done.
  - intros [Hf ->]. destruct (proj1 (HL I) Hf) as [v Hv].
    exists v. split; [done|]. apply HL in Hv as [_ ->]. done.
Qed.

Lemma mining_result_unique (T : list Transaction) (min_support : Q)
    (M1 M2 : gmap Itemset Q) :
  mining_result T min_support M1 → mining_result T min_support M2 → M1 = M2.
Proof.
  intros H1 H2. apply map_eq. intros I.
  destruct (M1 !! I) as [q|] eqn:E1.
  - apply H1, H2 in E1. done.
  - destruct (M2 !! I) as [q|] eqn:E2; [|done].
    apply H2, H1 in E2. congruence.
Qed.
End Threshold.

(** ** Apriori: the whole miner *)

Section AprioriMiner.

Lemma apriori_ok (fuel : nat) (T : list Transaction) (min_support : Q) :
  T ≠ [] → size (universe T) ≤ fuel →
  ∃ M, Apriori.apriori fuel T min_support = Some (Ok M) ∧
       mining_result T min_support M.
Proof.
  intros HT Hfuel. unfold Apriori.apriori.
  assert (Hn : length T ≠ 0) by by destruct T.
  rewrite decide_False by done. rewrite min_support_count_eq.
  set (msc := abs_threshold min_support (length T)).
  pose proof (abs_threshold_pos min_support (length T)) as Hmsc. fold msc in Hmsc.
  set (L1 := kmap singleton _).
  assert (HL1 : level T msc 1 L1).
  { intros I c. by apply first_level_lookup. }
  destruct (apriori_loop_ok T msc fuel 2 (L1 ∪ ∅) L1) as (L & -> & HL);
    [done|done|done| |lia|].
  { rewrite (right_id ∅ (∪)). intros I c. rewrite (HL1 I c). simpl.
    split; intros (? & ? & ?); split_and!; auto; lia. }
  destruct (relative_support_ok id L (length T) Hn) as (M & -> & HM).
  exists M. split; [done|]. by eapply mining_result_intro.
Qed.
End AprioriMiner.

(** ** Eclat: the vertical index *)

Section EclatIndex.
Implicit Types (T : list Transaction) (t : Transaction) (K I : Itemset).
Implicit Types (S : gset nat).

Lemma default_of_tids (o : option (gset nat)) (S0 : gset nat) :
  (∀ S, o = Some S ↔ S = S0 ∧ S ≠ ∅) → default ∅ o = S0.
Proof.
  intros H. destruct o as [S|] eqn:E; simpl.
  - by apply (proj1 (H S)).
  - destruct (decide (S0 = ∅)) as [->|Hne]; [done|].
    assert (None = Some S0) by by apply H. done.
Qed.

Lemma build_tidsets_step (m : gmap Itemset (gset nat)) (tid : nat) t
    (ts : Item → gset nat) :
  (∀ K S, m !! K = Some S ↔ ∃ a, K = {[a]} ∧ S = ts a ∧ S ≠ ∅) →
  ∀ K S,
    foldl (λ tidsets item,
             <[ ({[item]} : Itemset) :=
                  {[tid]} ∪ default ∅ (tidsets !! ({[item]} : Itemset)) ]>
               tidsets)
          m (elements t) !! K = Some S ↔
    ∃ a, K = {[a]} ∧
         S = ts a ∪ (if decide (a ∈ t) then {[tid]} else ∅) ∧ S ≠ ∅.
Proof.
  intros Hm.
  pose (Inv := λ (pre : list Item) (m' : gmap Itemset (gset nat)),
          ∀ K S, m' !! K = Some S ↔
                 ∃ a, K = {[a]} ∧
                      S = ts a ∪ (if decide (a ∈ pre) then {[tid]} else ∅) ∧
                      S ≠ ∅).
  assert (Hend : Inv (elements t)
            (foldl (λ tidsets item,
                      <[ ({[item]} : Itemset) :=
                           {[tid]} ∪ default ∅ (tidsets !! ({[item]} : Itemset)) ]>
                        tidsets)
                   m (elements t))).
  { apply foldl_inv.
    - intros K S. unfold Inv. rewrite Hm. f_equiv. intros a.
      rewrite decide_False by apply not_elem_of_nil.
      by rewrite (right_id_L ∅ (∪)).
    - intros pre x suf m' Hl Hpre K S. unfold Inv in Hpre.
      pose proof (NoDup_elements t) as Hnd. rewrite Hl in Hnd.
      apply NoDup_app in Hnd as (_ & Hdisj & _).
      assert (Hx : x ∉ pre) by (intros Hin; eapply Hdisj; [done|left]).
      destruct (decide (K = {[x]})) as [->|Hne].
      + rewrite lookup_insert_eq.
        rewrite (default_of_tids _ (ts x)).
        2:{ intros S'. rewrite Hpre. split.
            - intros (a & ->%(inj singleton) & -> & Hne).
              rewrite decide_False in Hne |- * by done.
              rewrite (right_id_L ∅ (∪)) in Hne |- *. done.
            - intros [-> Hne]. exists x. rewrite decide_False by done.
              by rewrite (right_id_L ∅ (∪)). }
        split.
        * intros [= <-]. exists x. rewrite decide_True by set_solver.
          split_and!; [done|set_solver|set_solver].
        * intros (a & ->%(inj singleton) & -> & _).
          rewrite decide_True by set_solver. f_equal. set_solver.
      + rewrite lookup_insert_ne by done. rewrite Hpre. f_equiv. intros a.
        destruct (decide (a = x)) as [->|Hax].
        * split; intros [-> _]; done.
        * destruct (decide (a ∈ pre)), (decide (a ∈ pre ++ [x])); set_solver. }
  intros K S. unfold Inv in Hend. rewrite (Hend K S). f_equiv. intros a.
  destruct (decide (a ∈ elements t)), (decide (a ∈ t)); set_solver.
Qed.

Lemma build_tidsets_lookup T K S :
  Eclat.build_tidsets T !! K = Some S ↔
  ∃ a, K = {[a]} ∧ S = tidset T {[a]} ∧ S ≠ ∅.
Proof.
  unfold Eclat.build_tidsets. revert K S.
  induction T as [|t T IH] using rev_ind; intros K S.
  - simpl. rewrite lookup_empty. split; [done|].
    intros (a & _ & -> & Hne). by rewrite tidset_nil in Hne.
  - rewrite imap_app, foldl_app. simpl.
    rewrite (build_tidsets_step _ _ t (λ a, tidset T {[a]}) IH).
    f_equiv. intros a. rewrite tidset_snoc, Nat.add_0_r.
    destruct (decide (a ∈ t)), (decide ({[a]} ⊆ t)); set_solver.
Qed.

(** The list [dfs] starts from: the frequent singletons, each once. *)
Lemma singleton_items_spec T (msc : Z) (x : Itemset * gset nat) :
  (1 ≤ msc)%Z →
  x ∈ merge_sort Eclat.key_le
        (map_to_list
           (filter (λ p : Itemset * gset nat, (msc ≤ Z.of_nat (size p.2))%Z)
                   (Eclat.build_tidsets T))) ↔
  ∃ a, x = ({[a]}, tidset T {[a]}) ∧
       (msc ≤ Z.of_nat (occurrences T {[a]}))%Z.
Proof.
  intros Hmsc. rewrite merge_sort_Permutation. destruct x as [K S].
  rewrite elem_of_map_to_list, map_lookup_filter_Some, build_tidsets_lookup.
  simpl. split.
  - intros [(a & -> & -> & _) Hsz]. exists a. by rewrite <- size_tidset.
  - intros (a & [= -> ->] & Hocc). rewrite size_tidset. split; [|done].
    exists a. split_and!; [done|done|].
    intros HE. rewrite <- size_tidset, HE, size_empty in Hocc. lia.
Qed.
End EclatIndex.

(** ** Eclat: the depth-first search *)

Section EclatSearch.
Variable T : list Transaction.
Variable msc : Z.
Implicit Types (P I K : Itemset) (Pt : gset nat).
Implicit Types (items rest : list (Itemset * gset nat)).
Implicit Types (R : gmap Itemset (gset nat)).

(** One turn of the loop of [dfs], with the new itemset and its TID-set
    written in terms of the transactions. *)
Lemma dfs_cons P Pt K S rest R :
  item_ok T (K, S) → (P ≠ ∅ → Pt = tidset T P) →
  Eclat.dfs msc P Pt ((K, S) :: rest) R =
  Eclat.dfs msc P Pt rest
    (if decide (msc ≤ Z.of_nat (size (tidset T (P ∪ K))))%Z
     then Eclat.dfs msc (P ∪ K) (tidset T (P ∪ K)) rest
                    (<[P ∪ K := tidset T (P ∪ K)]> R)
     else R).
Proof.
  intros (a & HK & HS) HP. simpl in HK, HS. subst K S. simpl.
  destruct (decide (P = ∅)) as [->|Hne].
  - by rewrite (left_id_L ∅ (∪)).
  - by rewrite tidset_union, <- HP.
Qed.

Lemma extended_nonempty P K : item_ok T (K, tidset T K) → P ∪ K ≠ ∅.
Proof. intros (a & HK & _). simpl in HK. set_solver. Qed.

(** [dfs] only ever stores an itemset with its own TID-set. *)
Lemma dfs_preserve items P Pt R I :
  Forall (item_ok T) items → (P ≠ ∅ → Pt = tidset T P) →
  R !! I = Some (tidset T I) →
  Eclat.dfs msc P Pt items R !! I = Some (tidset T I).
Proof.
  intros Hitems. revert P Pt R.
  induction Hitems as [|[K S] rest Hx Hrest IH]; intros P Pt R HP HR; [done|].
  rewrite dfs_cons by done. apply IH; [done|].
  case_decide; [|done]. apply IH.
  - done.
  - destruct (decide (I = P ∪ K)) as [->|Hne].
    + by rewrite lookup_insert_eq.
    + by rewrite lookup_insert_ne.
Qed.

Lemma extends_cons P K S rest I :
  item_ok T (K, S) →
  extends T msc P ((K, S) :: rest) I ↔
  extends T msc P rest I ∨
  ((msc ≤ Z.of_nat (size (tidset T (P ∪ K))))%Z ∧
   (I = P ∪ K ∨ extends T msc (P ∪ K) rest I)).
Proof.
  intros (a & HK & _). simpl in HK. subst K. unfold extends. simpl. split.
  - intros (S0 & Hne & Hsub & -> & Hf).
    destruct (decide (a ∈ S0)) as [Ha|Ha].
    + right. split.
      * rewrite !size_tidset in *.
        assert (Hsub' : P ∪ {[a]} ⊆ P ∪ S0) by set_solver.
        pose proof (occurrences_anti T _ _ Hsub'). lia.
      * destruct (decide (S0 ∖ {[a]} = ∅)) as [HE|HE].
        -- left. f_equal. clear -Ha HE. apply set_eq. intros z.
           destruct (decide (z = a)); set_solver.
        -- right. exists (S0 ∖ {[a]}). split_and!; [done|set_solver| |].
           ++ apply set_eq. intros z.
              destruct (decide (z = a)); set_solver.
           ++ done.
    + left. exists S0. split_and!; [done|set_solver|done|done].
  - intros [(S0 & Hne & Hsub & -> & Hf)|[Hfa [->|(S0 & Hne & Hsub & -> & Hf)]]].
    + exists S0. split_and!; [done|set_solver|done|done].
    + exists {[a]}. split_and!; [set_solver|set_solver|done|done].
    + exists ({[a]} ∪ S0). split_and!; [set_solver|set_solver|set_solver|done].
Qed.

(** Everything [dfs] adds is a frequent extension of the prefix, stored
    with its TID-set. *)
Lemma dfs_sound items P Pt R I v :
  Forall (item_ok T) items → (P ≠ ∅ → Pt = tidset T P) →
  Eclat.dfs msc P Pt items R !! I = Some v →
  R !! I = Some v ∨ (v = tidset T I ∧ extends T msc P items I).
Proof.
  intros Hitems. revert P Pt R.
  induction Hitems as [|[K S] rest Hx Hrest IH]; intros P Pt R HP Hl;
    [by left|].
  rewrite dfs_cons in Hl by done. rewrite extends_cons by done.
  apply IH in Hl as [Hl|[-> Hext]]; [|by right; split; [|left]|done].
  case_decide as Hf; [|by left].
  apply IH in Hl as [Hl|[-> Hext]].
  - destruct (decide (I = P ∪ K)) as [->|Hne].
    + rewrite lookup_insert_eq in Hl. injection Hl as <-.
      right. split; [done|]. right. split; [done|by left].
    + rewrite lookup_insert_ne in Hl by done. by left.
  - right. split; [done|]. right. split; [done|by right].
  - done.
Qed.

(** Every frequent extension of the prefix is found. *)
Lemma dfs_complete items P Pt R I :
  Forall (item_ok T) items → (P ≠ ∅ → Pt = tidset T P) →
  extends T msc P items I →
  Eclat.dfs msc P Pt items R !! I = Some (tidset T I).
Proof.
  intros Hitems. revert P Pt R.
  induction Hitems as [|[K S] rest Hx Hrest IH]; intros P Pt R HP Hext.
  - destruct Hext as (S0 & Hne & Hsub & _). simpl in Hsub. set_solver.
  - rewrite dfs_cons by done. apply extends_cons in Hext; [|done].
    destruct Hext as [Hext|[Hf [->|Hext]]].
    + by apply IH.
    + rewrite decide_True by done. apply dfs_preserve; [done|done|].
      apply dfs_preserve; [done|done|]. by rewrite lookup_insert_eq.
    + rewrite decide_True by done. apply dfs_preserve; [done|done|].
      by apply IH.
Qed.
End EclatSearch.

(** ** Eclat: the whole miner *)

Section EclatMiner.

Lemma eclat_ok (T : list Transaction) (min_support : Q) :
  T ≠ [] →
  ∃ M, Eclat.eclat T min_support = Ok M ∧ mining_result T min_support M.
Proof.
  intros HT. unfold Eclat.eclat.
  assert (Hn : length T ≠ 0) by by destruct T.
  rewrite decide_False by done. rewrite min_support_count_eq.
  set (msc := abs_threshold min_support (length T)).
  pose proof (abs_threshold_pos min_support (length T)) as Hmsc. fold msc in Hmsc.
  set (items := merge_sort _ _).
  assert (Hitems : ∀ x, x ∈ items ↔
            ∃ a, x = ({[a]}, tidset T {[a]}) ∧
                 (msc ≤ Z.of_nat (occurrences T {[a]}))%Z).
  { intros x. by apply singleton_items_spec. }
  assert (Hok : Forall (item_ok T) items).
  { apply Forall_forall. intros x (a & -> & _)%Hitems. by exists a. }
  set (results := Eclat.dfs _ _ _ _ _).
  assert (Hres : all_frequent size T msc results).
  { intros I. split.
    - intros [HI Hf]. exists (tidset T I).
      apply dfs_complete; [done|done|].
      exists I. split_and!; [done| |by rewrite (left_id_L ∅ (∪))|by rewrite size_tidset].
      intros a Ha. apply elem_of_union_list. exists {[a]}.
      split; [|set_solver]. apply list_elem_of_fmap.
      exists ({[a]}, tidset T {[a]}). split; [done|]. apply Hitems.
      exists a. split; [done|].
      pose proof (occurrences_anti T {[a]} I ltac:(set_solver)). lia.
    - intros v Hv. apply (dfs_sound T) in Hv as [Hv|[-> Hext]]; [| |done|done].
      + by rewrite lookup_empty in Hv.
      + destruct Hext as (S0 & Hne & _ & -> & Hf).
        rewrite (left_id_L ∅ (∪)) in *. rewrite size_tidset in *. done. }
  destruct (relative_support_ok size results (length T) Hn) as (M & -> & HM).
  exists M. split; [done|]. by eapply mining_result_intro.
Qed.
End EclatMiner.

(** ** Rule generation *)

Section Rules.
Implicit Types (freq : gmap Itemset Q) (mc sxy : Q) (itemset A : Itemset).
Implicit Types (rules : list Rule) (tuple : list Item).

Lemma for_each_append {X R : Type} (body : X → list R → result (list R))
    (g : X → list R) (l : list X) (s : list R) :
  (∀ x s, body x s = Ok (s ++ g x)) →
  for_each l body s = Ok (s ++ (l ≫= g)).
Proof.
  intros Hbody. revert s. induction l as [|x l IH]; intros s.
  - simpl. by rewrite (right_id_L [] (++)).
  - rewrite bind_cons. cbn [for_each]. rewrite Hbody.
    cbn [mbind result_bind]. rewrite IH. by rewrite (assoc_L (++)).
Qed.

Lemma bind_bind {X Y Z : Type} (f : X → list Y) (g : Y → list Z)
    (l : list X) :
  (l ≫= f) ≫= g = l ≫= (λ x, f x ≫= g).
Proof.
  induction l as [|x l IH]; [done|].
  by rewrite !bind_cons, bind_app, IH.
Qed.

Lemma py_truediv_nonzero (a b : Q) :
  ¬ (b == 0)%Q → py_truediv a b = Ok (a / b)%Q.
Proof.
  intros Hb. unfold py_truediv.
  destruct (Qeq_bool b 0) eqn:E; [|done]. by apply Qeq_bool_eq in E.
Qed.

(** One turn of the innermost loop never raises: both divisions are
    guarded. *)
Lemma rule_step_emitted freq mc itemset sxy tuple rules :
  Apriori.rule_step freq mc itemset sxy tuple rules =
  Ok (rules ++ emitted freq mc itemset sxy tuple).
Proof.
  unfold Apriori.rule_step, emitted.
  destruct (decide (itemset ∖ list_to_set tuple = ∅)) as [HE|HE].
  { repeat case_match; by rewrite ?(right_id_L [] (++)). }
  destruct (freq !! list_to_set tuple) as [sx|];
    [|by rewrite (right_id_L [] (++))].
  destruct (freq !! (itemset ∖ list_to_set tuple)) as [sy|];
    [|by rewrite (right_id_L [] (++))].
  destruct (Qeq_bool sx 0) eqn:Esx; [by rewrite (right_id_L [] (++))|].
  assert (Hsx : ¬ (sx == 0)%Q) by (apply Qeq_bool_neq; exact Esx).
  rewrite (py_truediv_nonzero sxy sx Hsx). cbn [mbind result_bind].
  destruct (Qlt_le_dec (sxy / sx) mc); [by rewrite (right_id_L [] (++))|].
  destruct (Qlt_le_dec 0 (sx * sy)) as [Hpos|Hnpos]; [|done].
  rewrite py_truediv_nonzero; [done|].
  intros Heq. rewrite Heq in Hpos. by apply Qlt_irrefl in Hpos.
Qed.

Lemma generate_association_rules_ok freq mc :
  Apriori.generate_association_rules freq mc = Ok (rules_of freq mc).
Proof.
  unfold Apriori.generate_association_rules, rules_of.
  apply (for_each_append _ _ _ []). intros [itemset sxy] rules. simpl.
  case_decide; [by rewrite (right_id_L [] (++))|].
  unfold candidate_splits. rewrite bind_bind.
  apply for_each_append. intros r rules'.
  apply for_each_append. intros tuple rules''. apply rule_step_emitted.
Qed.

Lemma eclat_rule_step_eq : Eclat.rule_step = Apriori.rule_step.
Proof. reflexivity. Qed.

Lemma eclat_generate_association_rules_eq :
  Eclat.generate_association_rules = Apriori.generate_association_rules.
Proof. reflexivity. Qed.

Lemma elem_of_emitted freq mc itemset sxy tuple (r : Rule) :
  r ∈ emitted freq mc itemset sxy tuple ↔
  ∃ sx sy,
    freq !! (list_to_set tuple : Itemset) = Some sx ∧
    freq !! (itemset ∖ list_to_set tuple) = Some sy ∧
    itemset ∖ list_to_set tuple ≠ ∅ ∧
    ¬ (sx == 0)%Q ∧ (mc <= sxy / sx)%Q ∧
    r = mkRule (list_to_set tuple) (itemset ∖ list_to_set tuple) sxy
               (sxy / sx)
               (if Qlt_le_dec 0 (sx * sy) then sxy / (sx * sy) else 0)%Q.
Proof.
  unfold emitted. split.
  - destruct (freq !! list_to_set tuple) as [sx|]; [|by intros ?%elem_of_nil].
    destruct (freq !! (itemset ∖ list_to_set tuple)) as [sy|];
      [|by intros ?%elem_of_nil].
    case_decide; [by intros ?%elem_of_nil|].
    destruct (Qeq_bool sx 0) eqn:E; [by intros ?%elem_of_nil|].
    destruct (Qlt_le_dec (sxy / sx) mc); [by intros ?%elem_of_nil|].
    intros ->%list_elem_of_singleton. exists sx, sy.
    split_and!; try done. by apply Qeq_bool_neq.
  - intros (sx & sy & -> & -> & HE & Hsx & Hc & ->).
    rewrite decide_False by done.
    destruct (Qeq_bool sx 0) eqn:E; [by apply Qeq_bool_eq in E|].
    destruct (Qlt_le_dec (sxy / sx) mc) as [Hlt|_].
    + exfalso. by eapply Qlt_not_le.
    + by apply list_elem_of_singleton.
Qed.

Lemma elem_of_rules_of freq mc (r : Rule) :
  r ∈ rules_of freq mc ↔
  ∃ itemset sxy tuple,
    freq !! itemset = Some sxy ∧ 2 ≤ size itemset ∧
    tuple ∈ candidate_splits (elements itemset) ∧
    r ∈ emitted freq mc itemset sxy tuple.
Proof.
  unfold rules_of. rewrite list_elem_of_bind. split.
  - intros ([itemset sxy] & Hr & Hin%elem_of_map_to_list). simpl in Hr.
    case_decide; [by apply elem_of_nil in Hr|].
    apply list_elem_of_bind in Hr as (tuple & Hr & Htuple).
    exists itemset, sxy, tuple. split_and!; [done|lia|done|done].
  - intros (itemset & sxy & tuple & Hl & Hsz & Htuple & Hr).
    exists (itemset, sxy). split; [|by apply elem_of_map_to_list]. simpl.
    rewrite decide_False by lia. apply list_elem_of_bind. by exists tuple.
Qed.
End Rules.

(** ** The splits tried by the rule generator *)

Section CountingCombinations.
Context {A : Type}.
Implicit Types (l c : list A) (r : nat).

Lemma length_bind {B : Type} (f : A → list B) l :
  length (l ≫= f) = sum_list_with (λ x, length (f x)) l.
Proof.
  induction l as [|x l IH]; [done|].
  rewrite bind_cons, length_app, IH. done.
Qed.

Lemma combinations_nil_S r : combinations (@nil A) (S r) = [].
Proof. done. Qed.

Lemma combinations_gt l r : length l < r → combinations l r = [].
Proof.
  revert r. induction l as [|x l IH]; intros [|r] Hr; simpl in *; try lia.
  - done.
  - rewrite !IH by lia. done.
Qed.

Lemma combinations_full l : combinations l (length l) = [l].
Proof.
  induction l as [|x l IH]; [done|]. simpl.
  rewrite IH, combinations_gt by lia. done.
Qed.

Lemma sum_seq_shift (f : nat → nat) a n :
  sum_list_with f (seq (S a) n) = sum_list_with (λ r, f (S r)) (seq a n).
Proof. revert a. induction n as [|n IH]; intros a; simpl; [done|]. by rewrite IH. Qed.

Lemma sum_seq_plus (f g : nat → nat) a n :
  sum_list_with (λ r, f r + g r) (seq a n) =
  sum_list_with f (seq a n) + sum_list_with g (seq a n).
Proof.
  revert a. induction n as [|n IH]; intros a; simpl; [done|].
  rewrite IH. lia.
Qed.

Lemma sum_seq_ext (f g : nat → nat) a n :
  (∀ r, f r = g r) →
  sum_list_with f (seq a n) = sum_list_with g (seq a n).
Proof.
  intros Hfg. revert a. induction n as [|n IH]; intros a; simpl; [done|].
  by rewrite IH, Hfg.
Qed.

Lemma sum_combinations_nil a n :
  1 ≤ a →
  sum_list_with (λ r, length (combinations (@nil A) r)) (seq a n) = 0.
Proof.
  revert a. induction n as [|n IH]; intros a Ha; simpl; [done|].
  rewrite IH by lia. destruct a; [lia|done].
Qed.

(** A list of [n] elements has [2 ^ n] subsequences. *)
Lemma sum_combinations l m :
  length l ≤ m →
  sum_list_with (λ r, length (combinations l r)) (seq 0 (S m)) =
  2 ^ length l.
Proof.
  revert m. induction l as [|x l IH]; intros m Hm.
  - cbn [seq sum_list_with]. rewrite sum_combinations_nil by lia. done.
  - simpl in Hm. destruct m as [|m]; [lia|].
    pose proof (IH m ltac:(lia)) as IH1.
    pose proof (IH (S m) ltac:(lia)) as IH2.
    cbn [seq sum_list_with] in IH2. rewrite combinations_0 in IH2.
    rewrite sum_seq_shift in IH2.
    change (seq 0 (S (S m))) with (0 :: seq 1 (S m)).
    cbn [sum_list_with]. rewrite combinations_0, sum_seq_shift.
    cbn [combinations].
    rewrite (sum_seq_ext _ (λ r, length (combinations l r) +
                                 length (combinations l (S r))))
      by (intros r; by rewrite length_app, length_fmap).
    rewrite sum_seq_plus, IH1. simpl in IH2 |- *. lia.
Qed.

Lemma elem_of_candidate_range l a n c :
  c ∈ seq a n ≫= combinations l ↔
  c `sublist_of` l ∧ a ≤ length c < a + n.
Proof.
  rewrite list_elem_of_bind. setoid_rewrite elem_of_combinations.
  setoid_rewrite elem_of_seq. naive_solver.
Qed.

Lemma NoDup_combinations l r : NoDup l → NoDup (combinations l r).
Proof.
  intros Hnd. revert r. induction Hnd as [|x l Hx Hnd IH]; intros [|r]; simpl.
  - apply NoDup_singleton.
  - apply NoDup_nil_2.
  - apply NoDup_singleton.
  - apply NoDup_app. split_and!.
    + apply NoDup_fmap_2_strong; [|apply IH]. by intros c1 c2 _ _ [= ->].
    + intros c (c' & -> & _)%list_elem_of_fmap
               [Hsub _]%elem_of_combinations.
      apply Hx. eapply elem_of_sublist; [|done]. left.
    + apply IH.
Qed.

(** A subsequence of a duplicate-free list is determined by its elements. *)
Lemma sublist_eq_of_elems l c1 c2 :
  NoDup l → c1 `sublist_of` l → c2 `sublist_of` l →
  (∀ x, x ∈ c1 ↔ x ∈ c2) → c1 = c2.
Proof.
  intros Hnd. revert c1 c2.
  induction Hnd as [|x l Hx Hnd IH]; intros c1 c2 H1 H2 Heq.
  - apply sublist_nil_r in H1, H2. by subst.
  - apply sublist_cons_r in H1 as [H1|(c1' & -> & H1)];
      apply sublist_cons_r in H2 as [H2|(c2' & -> & H2)].
    + by apply IH.
    + exfalso. apply Hx. eapply elem_of_sublist; [|exact H1].
      apply Heq. left.
    + exfalso. apply Hx. eapply elem_of_sublist; [|exact H2].
      apply Heq. left.
    + f_equal. apply IH; [done|done|]. intros y. split; intros Hy.
      * assert (y ∈ x :: c2') as [->|?]%elem_of_cons
          by (apply Heq; by right); [|done].
        exfalso. apply Hx. by eapply elem_of_sublist.
      * assert (y ∈ x :: c1') as [->|?]%elem_of_cons
          by (apply Heq; by right); [|done].
        exfalso. apply Hx. by eapply elem_of_sublist.
Qed.
End CountingCombinations.

Section Splits.
Implicit Types (X A : Itemset) (l c : list Item).

Lemma length_candidate_splits l :
  1 ≤ length l → length (candidate_splits l) = 2 ^ length l - 2.
Proof.
  intros Hl. unfold candidate_splits. rewrite length_bind.
  pose proof (sum_combinations l (length l) ltac:(lia)) as Hsum.
  pose proof (combinations_full l) as Hfull.
  destruct (length l) as [|n]; [lia|].
  replace (S n - 1) with n by lia.
  change (seq 0 (S (S n))) with (0 :: seq 1 (S n)) in Hsum.
  rewrite seq_S in Hsum. cbn [sum_list_with Nat.add] in Hsum.
  rewrite combinations_0, sum_list_with_app in Hsum.
  cbn [sum_list_with] in Hsum.
  rewrite Hfull in Hsum. simpl in Hsum |- *. lia.
Qed.

Lemma elem_of_candidate_splits l c :
  c ∈ candidate_splits l ↔ c `sublist_of` l ∧ 1 ≤ length c < length l.
Proof.
  unfold candidate_splits. rewrite elem_of_candidate_range.
  split; intros [? ?]; split; [done|lia|done|lia].
Qed.

(** The antecedents tried for an itemset are its non-empty proper
    subsets. *)
Lemma candidate_splits_subsets X A :
  (∃ c, c ∈ candidate_splits (elements X) ∧ list_to_set c = A) ↔
  A ⊆ X ∧ A ≠ ∅ ∧ A ≠ X.
Proof.
  pose proof (NoDup_elements X) as Hnd.
  assert (HX : list_to_set (elements X) = X) by apply list_to_set_elements_L.
  assert (Hlen : length (elements X) = size X) by done.
  split.
  - intros (c & [Hsub Hlenc]%elem_of_candidate_splits & <-).
    destruct (subset_of_sublist _ _ Hnd Hsub) as [H1 H2]. rewrite HX in H1.
    split_and!; [done| |].
    + intros HE. rewrite HE, size_empty in H2. lia.
    + intros HE. rewrite HE in H2. lia.
  - intros (HA & Hne & Hneq). rewrite <- HX in HA.
    destruct (sublist_of_subset _ _ Hnd HA) as (c & Hsub & Hset & Hlenc).
    exists c. split; [|done]. apply elem_of_candidate_splits.
    split; [done|]. rewrite Hlenc, Hlen. rewrite HX in HA. split.
    + assert (size A ≠ 0); [|lia].
      rewrite size_non_empty_iff. by intros ?%leibniz_equiv.
    + apply subset_size. split; [done|]. intros HXA. apply Hneq.
      by apply (anti_symm (⊆)).
Qed.

Lemma NoDup_candidate_splits X :
  NoDup (list_to_set (C := Itemset) <$> candidate_splits (elements X)).
Proof.
  pose proof (NoDup_elements X) as Hnd.
  apply NoDup_fmap_2_strong.
  - intros c1 c2 [H1 _]%elem_of_candidate_splits
           [H2 _]%elem_of_candidate_splits Heq.
    apply (sublist_eq_of_elems (elements X)); [done|done|done|].
    intros x. rewrite <- !(elem_of_list_to_set (C := Itemset)).
    by rewrite Heq.
  - unfold candidate_splits. apply NoDup_bind.
    + intros r1 r2 c _ _ [_ <-]%elem_of_combinations
             [_ <-]%elem_of_combinations. done.
    + intros r _. by apply NoDup_combinations.
    + apply NoDup_seq.
Qed.
End Splits.

(** ** Fuel *)

Section Fuel.
Implicit Types (T : list Transaction) (L Lk : gmap Itemset nat).

(** More fuel never changes what the loop returns. *)
Lemma apriori_loop_mono fuel fuel' T msc L Lk k r :
  fuel ≤ fuel' →
  Apriori.apriori_loop fuel T msc L Lk k = Some r →
  Apriori.apriori_loop fuel' T msc L Lk k = Some r.
Proof.
  revert fuel' L Lk k.
  induction fuel as [|fuel IH]; intros fuel' L Lk k Hle; simpl.
  - case_decide as HE; [|done]. intros [= <-].
    destruct fuel'; simpl; by rewrite decide_True.
  - destruct fuel' as [|fuel']; [lia|]. simpl.
    case_decide; [done|].
    destruct (Apriori.count_support T _); [|done].
    apply IH. lia.
Qed.

Lemma apriori_mono fuel fuel' T min_support r :
  fuel ≤ fuel' →
  Apriori.apriori fuel T min_support = Some r →
  Apriori.apriori fuel' T min_support = Some r.
Proof.
  intros Hle. unfold Apriori.apriori. case_decide; [done|].
  destruct (Apriori.apriori_loop fuel _ _ _ _ _) as [r'|] eqn:E; [|done].
  by rewrite (apriori_loop_mono _ _ _ _ _ _ _ _ Hle E).
Qed.

(** Whatever [apriori] returns, on whatever fuel, is the mapping of the
    frequent itemsets. *)
Lemma apriori_returns fuel T min_support r :
  T ≠ [] →
  Apriori.apriori fuel T min_support = Some r →
  ∃ M, r = Ok M ∧ mining_result T min_support M.
Proof.
  intros HT Hr.
  destruct (apriori_ok (fuel `max` size (universe T)) T min_support HT)
    as (M & HM & Hres); [lia|].
  rewrite (apriori_mono fuel _ T min_support r) in HM; [|lia|done].
  exists M. split; [congruence|done].
Qed.

Lemma mining_result_nil fuel min_support :
  Apriori.apriori fuel [] min_support = Some (Ok ∅) ∧
  Eclat.eclat [] min_support = Ok ∅.
Proof. done. Qed.

(** Either miner, on a non-empty list of transactions. *)
Lemma miner_returns fuel T min_support M :
  T ≠ [] →
  Apriori.apriori fuel T min_support = Some (Ok M) ∨
  Eclat.eclat T min_support = Ok M →
  mining_result T min_support M.
Proof.
  intros HT [Ha|He].
  - destruct (apriori_returns fuel T min_support _ HT Ha) as (M' & [= <-] & H).
    done.
  - destruct (eclat_ok T min_support HT) as (M' & HM' & H).
    rewrite He in HM'. by injection HM' as ->.
Qed.

Lemma support_bounds (c n : nat) :
  1 ≤ c → c ≤ n →
  (0 < py_float c / py_float n)%Q ∧ (py_float c / py_float n <= 1)%Q.
Proof.
  intros Hc Hn. unfold py_float.
  assert (Hpos : (0 < inject_Z (Z.of_nat n))%Q).
  { rewrite <- (Zlt_Qlt 0). lia. }
  split.
  - apply Qlt_shift_div_l; [done|]. rewrite Qmult_0_l.
    rewrite <- (Zlt_Qlt 0). lia.
  - apply Qle_shift_div_r; [done|]. rewrite Qmult_1_l.
    rewrite <- Zle_Qle. lia.
Qed.
End Fuel.

(** * The properties of the specification *)

(** ** The two miners *)

(** C1: on every list of transactions and every [min_support], [apriori]
    (given fuel for as many rounds as there are distinct items) and [eclat]
    both return, without raising, and return the same mapping: the same
    keys, and the same support under each key. *)
Theorem apriori_eclat_equivalent (fuel : nat) (T : list Transaction)
    (min_support : Q) :
  size (universe T) ≤ fuel →
  ∃ M, Apriori.apriori fuel T min_support = Some (Ok M) ∧
       Eclat.eclat T min_support = Ok M.
Proof.
  intros Hfuel. destruct (decide (T = [])) as [->|HT].
  - exists ∅. apply mining_result_nil.
  - destruct (apriori_ok fuel T min_support HT Hfuel) as (Ma & Ha & HMa).
    destruct (eclat_ok T min_support HT) as (Me & He & HMe).
    exists Ma. split; [done|].
    by rewrite (mining_result_unique T min_support Ma Me).
Qed.

Lemma apriori_eclat_equivalent_witness :
  ∃ M, Apriori.apriori 3 scenario_1 (1 # 2)%Q = Some (Ok M) ∧
       Eclat.eclat scenario_1 (1 # 2)%Q = Ok M.
Proof. apply apriori_eclat_equivalent. vm_compute. lia. Defined.

(** C2: on a non-empty list of [n] transactions, each miner returns the
    mapping whose keys are exactly the non-empty itemsets contained in at
    least [max(1, floor(min_support * n + 1e-9))] transactions, each mapped
    to its number of occurrences divided by [n]. *)
Theorem miners_return_frequent_itemsets (fuel : nat) (T : list Transaction)
    (min_support : Q) :
  T ≠ [] → size (universe T) ≤ fuel →
  ∃ M, Apriori.apriori fuel T min_support = Some (Ok M) ∧
       Eclat.eclat T min_support = Ok M ∧
       ∀ I q, M !! I = Some q ↔
              (I ≠ ∅ ∧
               (Z.max 1 (Qfloor (min_support * inject_Z (Z.of_nat (length T))
                                 + eps)%Q)
                ≤ Z.of_nat (occurrences T I))%Z) ∧
              q = (inject_Z (Z.of_nat (occurrences T I)) /
                   inject_Z (Z.of_nat (length T)))%Q.
Proof.
  intros HT Hfuel.
  destruct (apriori_ok fuel T min_support HT Hfuel) as (Ma & Ha & HMa).
  destruct (eclat_ok T min_support HT) as (Me & He & HMe).
  exists Ma. split_and!; [done| |exact HMa].
  by rewrite (mining_result_unique T min_support Ma Me).
Qed.

Lemma miners_return_frequent_itemsets_witness :
  ∃ M, Apriori.apriori 3 scenario_1 (1 # 2)%Q = Some (Ok M) ∧
       Eclat.eclat scenario_1 (1 # 2)%Q = Ok M ∧
       ∀ I q, M !! I = Some q ↔
              (I ≠ ∅ ∧
               (Z.max 1 (Qfloor ((1 # 2) * inject_Z (Z.of_nat (length scenario_1))
                                 + eps)%Q)
                ≤ Z.of_nat (occurrences scenario_1 I))%Z) ∧
              q = (inject_Z (Z.of_nat (occurrences scenario_1 I)) /
                   inject_Z (Z.of_nat (length scenario_1)))%Q.
Proof.
  apply miners_return_frequent_itemsets; [discriminate|vm_compute; lia].
Defined.

(** C4: the mapping either miner returns is downward closed: with a key
    [B], every non-empty subset [A] of [B] is a key as well. *)
Theorem frequent_itemsets_downward_closed (fuel : nat) (T : list Transaction)
    (min_support : Q) :
  size (universe T) ≤ fuel →
  ∃ M, Apriori.apriori fuel T min_support = Some (Ok M) ∧
       Eclat.eclat T min_support = Ok M ∧
       ∀ A B : Itemset,
         is_Some (M !! B) → A ⊆ B → A ≠ ∅ → is_Some (M !! A).
Proof.
  intros Hfuel. destruct (decide (T = [])) as [->|HT].
  - exists ∅. split_and!; [done|done|].
    intros A B [q Hq]. by rewrite lookup_empty in Hq.
  - destruct (apriori_ok fuel T min_support HT Hfuel) as (Ma & Ha & HMa).
    destruct (eclat_ok T min_support HT) as (Me & He & HMe).
    exists Ma. split_and!; [done| |].
    + by rewrite (mining_result_unique T min_support Ma Me).
    + intros A B [q [HB _]%HMa] HAB HA. eexists. apply HMa.
      split; [|done]. by eapply frequent_anti.
Qed.

Lemma frequent_itemsets_downward_closed_witness :
  ∃ M, Apriori.apriori 3 scenario_5 (1 # 100)%Q = Some (Ok M) ∧
       Eclat.eclat scenario_5 (1 # 100)%Q = Ok M ∧
       ∀ A B : Itemset,
         is_Some (M !! B) → A ⊆ B → A ≠ ∅ → is_Some (M !! A).
Proof. apply frequent_itemsets_downward_closed. vm_compute. lia. Defined.

(** C5: on a non-empty list of transactions, when [int(min_support * n +
    1e-9)] is [0] (or less) the miners require one occurrence: the keys are
    the non-empty itemsets that occur at least once.  Whatever the
    threshold, an itemset contained in no transaction is not a key, and
    every support returned is strictly positive and at most [1]. *)
Theorem degenerate_threshold_clamped (fuel : nat) (T : list Transaction)
    (min_support : Q) :
  T ≠ [] → size (universe T) ≤ fuel →
  ∃ M, Apriori.apriori fuel T min_support = Some (Ok M) ∧
       Eclat.eclat T min_support = Ok M ∧
       ((py_int (min_support * py_float (length T) + eps)%Q ≤ 0)%Z →
        ∀ I, is_Some (M !! I) ↔ I ≠ ∅ ∧ 1 ≤ occurrences T I) ∧
       (∀ I, occurrences T I = 0 → M !! I = None) ∧
       (∀ I q, M !! I = Some q → (0 < q)%Q ∧ (q <= 1)%Q).
Proof.
  intros HT Hfuel.
  destruct (apriori_ok fuel T min_support HT Hfuel) as (Ma & Ha & HMa).
  destruct (eclat_ok T min_support HT) as (Me & He & HMe).
  exists Ma. split_and!; [done| | | |].
  - by rewrite (mining_result_unique T min_support Ma Me).
  - intros Hzero I.
    assert (Hthr : abs_threshold min_support (length T) = 1%Z).
    { rewrite <- min_support_count_eq. lia. }
    split.
    + intros [q [[HI Hocc] _]%HMa]. rewrite Hthr in Hocc. split; [done|lia].
    + intros [HI Hocc]. eexists. apply HMa. split; [|done].
      split; [done|]. rewrite Hthr. lia.
  - intros I Hocc. destruct (Ma !! I) as [q|] eqn:E; [|done].
    apply HMa in E as [[_ Hf] _].
    pose proof (abs_threshold_pos min_support (length T)). lia.
  - intros I q [[_ Hf] ->]%HMa. apply support_bounds.
    + pose proof (abs_threshold_pos min_support (length T)). lia.
    + apply occurrences_le_length.
Qed.

Lemma degenerate_threshold_clamped_witness :
  ∃ M, Apriori.apriori 3 scenario_5 (1 # 100)%Q = Some (Ok M) ∧
       Eclat.eclat scenario_5 (1 # 100)%Q = Ok M ∧
       ((py_int ((1 # 100) * py_float (length scenario_5) + eps)%Q ≤ 0)%Z →
        ∀ I, is_Some (M !! I) ↔ I ≠ ∅ ∧ 1 ≤ occurrences scenario_5 I) ∧
       (∀ I, occurrences scenario_5 I = 0 → M !! I = None) ∧
       (∀ I q, M !! I = Some q → (0 < q)%Q ∧ (q <= 1)%Q).
Proof.
  apply degenerate_threshold_clamped; [discriminate|vm_compute; lia].
Defined.

(** C9: on an empty list of transactions both miners return the empty
    mapping, on any fuel and without raising, and the rule generator
    applied to the empty mapping returns no rule. *)
Theorem empty_input_yields_empty_results (fuel : nat)
    (min_support min_confidence : Q) :
  Apriori.apriori fuel [] min_support = Some (Ok ∅) ∧
  Eclat.eclat [] min_support = Ok ∅ ∧
  Apriori.generate_association_rules ∅ min_confidence = Ok [] ∧
  Eclat.generate_association_rules ∅ min_confidence = Ok [].
Proof.
  split_and!; [done|done| |].
  - unfold Apriori.generate_association_rules. by rewrite map_to_list_empty.
  - unfold Eclat.generate_association_rules. by rewrite map_to_list_empty.
Qed.

(** ** Candidate generation *)

(** C3: the candidates of size [k] are the unions of two distinct itemsets
    of the previous level [Lk] that have exactly [k] items and all of whose
    subsets of size [k - 1] are in [Lk] (a set: each candidate once).
    Support is counted for these pruned candidates and for nothing else,
    and the next level is filtered from those counts. *)
Theorem apriori_candidates_join_then_prune (transactions : list Transaction)
    (Lk : gmap Itemset nat) (k : nat) :
  (∀ I : Itemset,
      I ∈ Apriori.generate_candidates Lk k ↔
      ∃ a b, a ∈ dom Lk ∧ b ∈ dom Lk ∧ a ≠ b ∧ I = a ∪ b ∧ size I = k ∧
             ∀ J, J ⊆ I → size J = k - 1 → J ∈ dom Lk) ∧
  ∃ counts,
    Apriori.count_support transactions (Apriori.generate_candidates Lk k)
      = Ok counts ∧
    dom counts = Apriori.generate_candidates Lk k ∧
    ∀ fuel min_support_count L,
      Lk ≠ ∅ →
      Apriori.apriori_loop (S fuel) transactions min_support_count L Lk k =
      let Lk' :=
        filter (λ p : Itemset * nat, (min_support_count ≤ Z.of_nat p.2)%Z)
               counts in
      Apriori.apriori_loop fuel transactions min_support_count
                           (Lk' ∪ L) Lk' (k + 1).
Proof.
  split; [intros I; apply generate_candidates_spec|].
  destruct (count_support_ok transactions (Apriori.generate_candidates Lk k))
    as (counts & Hrun & Hcounts).
  exists counts. split_and!; [done| |].
  - apply set_eq. intros c. rewrite elem_of_dom. split.
    + intros [v Hv]. by apply Hcounts in Hv as [? _].
    + intros Hc. eexists. by apply Hcounts.
  - intros fuel msc L HE. simpl. rewrite decide_False by done.
    by rewrite Hrun.
Qed.

(** ** Rule generation *)

(** C6: on a mapping whose supports are not negative, every rule of
    [generate_association_rules] has a confidence of at least
    [min_confidence] and a lift that is not negative. *)
Theorem rules_confidence_and_lift_bounds (freq_itemsets : gmap Itemset Q)
    (min_confidence : Q) :
  map_Forall (λ _ s, (0 <= s)%Q) freq_itemsets →
  ∃ rules,
    Apriori.generate_association_rules freq_itemsets min_confidence = Ok rules ∧
    Eclat.generate_association_rules freq_itemsets min_confidence = Ok rules ∧
    Forall (λ r, (min_confidence <= confidence r)%Q ∧ (0 <= lift r)%Q) rules.
Proof.
  intros Hpos. exists (rules_of freq_itemsets min_confidence).
  split_and!; [apply generate_association_rules_ok..|].
  apply Forall_forall. intros r Hr.
  apply elem_of_rules_of in Hr as (itemset & sxy & tuple & Hl & _ & _ & Hr).
  apply elem_of_emitted in Hr as (sx & sy & _ & _ & _ & _ & Hc & ->). simpl.
  split; [done|].
  destruct (Qlt_le_dec 0 (sx * sy)) as [Hden|_]; [|apply Qle_refl].
  apply Qle_shift_div_l; [done|]. rewrite Qmult_0_l. by apply (Hpos itemset).
Qed.

Lemma rules_confidence_and_lift_bounds_witness :
  ∃ rules,
    Apriori.generate_association_rules scenario_3 (1 # 2)%Q = Ok rules ∧
    Eclat.generate_association_rules scenario_3 (1 # 2)%Q = Ok rules ∧
    Forall (λ r, ((1 # 2) <= confidence r)%Q ∧ (0 <= lift r)%Q) rules.
Proof.
  apply rules_confidence_and_lift_bounds. unfold scenario_3.
  repeat apply map_Forall_insert_2; [discriminate..|].
  apply map_Forall_empty.
Defined.

(** C7: every rule has a non-empty antecedent and a non-empty consequent
    that are disjoint and whose union is a key of the mapping with at least
    two items.  For a key of [k >= 2] items the antecedents tried are the
    [r]-combinations of its items for [r] from [1] to [k - 1]: [2 ^ k - 2]
    tuples, no two with the same items, standing for exactly the non-empty
    proper subsets of the key; and the rules returned are those that these
    splits give. *)
Theorem rules_partition_frequent_itemsets (freq_itemsets : gmap Itemset Q)
    (min_confidence : Q) :
  ∃ rules,
    Apriori.generate_association_rules freq_itemsets min_confidence = Ok rules ∧
    Forall (λ r, antecedent r ≠ ∅ ∧ consequent r ≠ ∅ ∧
                 antecedent r ## consequent r ∧
                 is_Some (freq_itemsets !! (antecedent r ∪ consequent r)) ∧
                 2 ≤ size (antecedent r ∪ consequent r)) rules ∧
    (∀ itemset : Itemset,
        is_Some (freq_itemsets !! itemset) → 2 ≤ size itemset →
        length (candidate_splits (elements itemset)) = 2 ^ size itemset - 2 ∧
        NoDup (list_to_set (C := Itemset) <$> candidate_splits (elements itemset)) ∧
        ∀ A : Itemset,
          (∃ tuple, tuple ∈ candidate_splits (elements itemset) ∧
                    list_to_set tuple = A) ↔
          A ⊆ itemset ∧ A ≠ ∅ ∧ A ≠ itemset) ∧
    (∀ r, r ∈ rules ↔
          ∃ itemset supp_XY tuple,
            freq_itemsets !! itemset = Some supp_XY ∧ 2 ≤ size itemset ∧
            tuple ∈ candidate_splits (elements itemset) ∧
            r ∈ emitted freq_itemsets min_confidence itemset supp_XY tuple).
Proof.
  exists (rules_of freq_itemsets min_confidence).
  split_and!; [apply generate_association_rules_ok| | |].
  - apply Forall_forall. intros r Hr.
    apply elem_of_rules_of in Hr as (itemset & sxy & tuple & Hl & Hsz & Ht & Hr).
    apply elem_of_emitted in Hr as (sx & sy & _ & _ & HC & _ & _ & ->). simpl.
    destruct (proj1 (candidate_splits_subsets itemset (list_to_set tuple)))
      as (Hsub & Hne & _); [by exists tuple|].
    assert (HU : list_to_set tuple ∪ itemset ∖ list_to_set tuple = itemset).
    { apply set_eq. intros x.
      destruct (decide (x ∈ (list_to_set tuple : Itemset))); set_solver. }
    rewrite HU. split_and!; [done|done|set_solver|by exists sxy|done].
  - intros itemset _ Hsz. split_and!.
    + rewrite length_candidate_splits; [done|].
      change (length (elements itemset)) with (size itemset). lia.
    + apply NoDup_candidate_splits.
    + apply candidate_splits_subsets.
  - apply elem_of_rules_of.
Qed.

(** C8: a split whose antecedent or consequent is not a key of the mapping
    leaves the rules as they are and raises nothing; and when the product of
    the two supports is [0] the step raises nothing and any rule it adds
    has lift [0].  On the whole mapping: the generator returns, antecedent
    and consequent of every rule are keys, and a rule whose two supports
    multiply to [0] has lift [0]. *)
Theorem unsupported_splits_skipped_and_zero_lift
    (freq_itemsets : gmap Itemset Q) (min_confidence : Q) :
  (∀ (itemset : Itemset) (supp_XY : Q) (tuple : list Item) (rules : list Rule),
      (freq_itemsets !! (list_to_set tuple : Itemset) = None ∨
       freq_itemsets !! (itemset ∖ list_to_set tuple) = None →
       Apriori.rule_step freq_itemsets min_confidence itemset supp_XY tuple rules
         = Ok rules ∧
       Eclat.rule_step freq_itemsets min_confidence itemset supp_XY tuple rules
         = Ok rules) ∧
      (∀ supp_X supp_Y,
          freq_itemsets !! (list_to_set tuple : Itemset) = Some supp_X →
          freq_itemsets !! (itemset ∖ list_to_set tuple) = Some supp_Y →
          (supp_X * supp_Y == 0)%Q →
          ∃ new,
            Apriori.rule_step freq_itemsets min_confidence itemset supp_XY
                              tuple rules = Ok (rules ++ new) ∧
            Eclat.rule_step freq_itemsets min_confidence itemset supp_XY
                            tuple rules = Ok (rules ++ new) ∧
            Forall (λ r, lift r = 0%Q) new)) ∧
  ∃ rules,
    Apriori.generate_association_rules freq_itemsets min_confidence = Ok rules ∧
    Eclat.generate_association_rules freq_itemsets min_confidence = Ok rules ∧
    Forall (λ r, ∃ supp_X supp_Y,
                   freq_itemsets !! antecedent r = Some supp_X ∧
                   freq_itemsets !! consequent r = Some supp_Y ∧
                   ((supp_X * supp_Y == 0)%Q → lift r = 0%Q)) rules.
Proof.
  assert (Hlift : ∀ sx sy sxy : Q,
             (sx * sy == 0)%Q →
             (if Qlt_le_dec 0 (sx * sy) then sxy / (sx * sy) else 0)%Q = 0%Q).
  { intros sx sy sxy Hz. destruct (Qlt_le_dec 0 (sx * sy)) as [Hlt|_]; [|done].
    rewrite Hz in Hlt. by apply Qlt_irrefl in Hlt. }
  split.
  - intros itemset sxy tuple rules. rewrite eclat_rule_step_eq. split.
    + intros Hmiss. rewrite rule_step_emitted. unfold emitted.
      destruct Hmiss as [-> | ->]; [|case_match];
        by rewrite (right_id_L [] (++)).
    + intros sx sy Hx Hy Hz.
      exists (emitted freq_itemsets min_confidence itemset sxy tuple).
      split_and!; [apply rule_step_emitted..|].
      apply Forall_forall. intros r Hr.
      apply elem_of_emitted in Hr as (sx' & sy' & Hx' & Hy' & _ & _ & _ & ->).
      simpl. rewrite Hx in Hx'. rewrite Hy in Hy'.
      injection Hx' as <-. injection Hy' as <-. by apply Hlift.
  - exists (rules_of freq_itemsets min_confidence).
    split_and!; [apply generate_association_rules_ok..|].
    apply Forall_forall. intros r Hr.
    apply elem_of_rules_of in Hr as (itemset & sxy & tuple & _ & _ & _ & Hr).
    apply elem_of_emitted in Hr as (sx & sy & Hx & Hy & _ & _ & _ & ->).
    exists sx, sy. simpl. split_and!; [done|done|]. apply Hlift.
Qed.

(** C10: [generate_association_rules] returns on every mapping and every
    [min_confidence], whatever the supports: a split whose antecedent has a
    support equal to [0] leaves the rules as they are, before any division,
    so that no division raises. *)
Theorem generate_association_rules_total (freq_itemsets : gmap Itemset Q)
    (min_confidence : Q) :
  (∃ rules,
      Apriori.generate_association_rules freq_itemsets min_confidence
        = Ok rules) ∧
  (∃ rules,
      Eclat.generate_association_rules freq_itemsets min_confidence
        = Ok rules) ∧
  ∀ (itemset : Itemset) (supp_XY : Q) (tuple : list Item) (rules : list Rule)
    (supp_X : Q),
    freq_itemsets !! (list_to_set tuple : Itemset) = Some supp_X →
    (supp_X == 0)%Q →
    Apriori.rule_step freq_itemsets min_confidence itemset supp_XY tuple rules
      = Ok rules ∧
    Eclat.rule_step freq_itemsets min_confidence itemset supp_XY tuple rules
      = Ok rules.
Proof.
  split_and!.
  - eexists. apply generate_association_rules_ok.
  - eexists. apply generate_association_rules_ok.
  - intros itemset sxy tuple rules sx Hx Hz. rewrite eclat_rule_step_eq.
    assert (Apriori.rule_step freq_itemsets min_confidence itemset sxy tuple
                              rules = Ok rules); [|done].
    unfold Apriori.rule_step. rewrite Hx.
    case_decide; [done|]. case_match; [|done].
    by rewrite (Qeq_eq_bool _ _ Hz).
Qed.

(** ** The scenarios of the specification, evaluated *)

Section Scenarios.
Local Open Scope string_scope.
Local Open Scope Q_scope.

(** Scenario 1: with [min_support = 0.5] the threshold is [2]; [a], [b],
    [c], [{a, b}] and [{b, c}] are frequent, [{a, c}] is not. *)
Example scenario_1_frequent :
  Apriori.apriori 3 scenario_1 (1 # 2) =
  Some (Ok (list_to_map
              [ ({["a"]}, 3 # 4); ({["b"]}, 3 # 4); ({["c"]}, 2 # 4);
                ({["a"; "b"]}, 2 # 4); ({["b"; "c"]}, 2 # 4) ])) ∧
  Eclat.eclat scenario_1 (1 # 2) =
  Ok (list_to_map
        [ ({["a"]}, 3 # 4); ({["b"]}, 3 # 4); ({["c"]}, 2 # 4);
          ({["a"; "b"]}, 2 # 4); ({["b"; "c"]}, 2 # 4) ]).
Proof. split; reflexivity. Qed.

(** Scenario 2: with [min_support = 1.0] nothing is frequent. *)
Example scenario_2_nothing_frequent :
  Apriori.apriori 3 scenario_1 1 = Some (Ok ∅) ∧
  Eclat.eclat scenario_1 1 = Ok ∅.
Proof. split; reflexivity. Qed.

(** Scenario 3: the rule [a → b] has confidence [4/6] and lift [16/18],
    and so has [b → a]. *)
Example scenario_3_rules :
  Apriori.generate_association_rules scenario_3 (1 # 2) =
  Ok [ mkRule {["a"]} {["b"]} (1 # 2) (4 # 6) (16 # 18);
       mkRule {["b"]} {["a"]} (1 # 2) (4 # 6) (16 # 18) ] ∧
  4 # 6 == 2 # 3 ∧ 16 # 18 == 8 # 9.
Proof. split_and!; reflexivity. Qed.

(** Scenario 5: the seven non-empty subsets of [{x, y, z}], each with
    support [1]. *)
Example scenario_5_all_subsets :
  Eclat.eclat scenario_5 (1 # 100) =
  Ok (list_to_map
        [ ({["x"]}, 1); ({["y"]}, 1); ({["z"]}, 1);
          ({["x"; "y"]}, 1); ({["x"; "z"]}, 1); ({["y"; "z"]}, 1);
          ({["x"; "y"; "z"]}, 1) ]).
Proof. reflexivity. Qed.

(** With too little fuel the loop of [apriori] is cut short. *)
Example scenario_5_out_of_fuel :
  Apriori.apriori 2 scenario_5 (1 # 100) = None.
Proof. reflexivity. Qed.

(** A negative "support" is outside the data model; with one, a lift can
    be negative. *)
Example negative_support_negative_lift :
  Apriori.generate_association_rules
    (<[ ({["a"; "b"]} : Itemset) := - (1) ]>
       (<[ ({["a"]} : Itemset) := - (1) ]> {[ ({["b"]} : Itemset) := - (1) ]}))
    0 =
  Ok [ mkRule {["a"]} {["b"]} (- (1)) 1 (- (1));
       mkRule {["b"]} {["a"]} (- (1)) 1 (- (1)) ].
Proof. reflexivity. Qed.
End Scenarios.

(** * Beyond the mining core *)

(** ** Preprocessing *)

Section PreprocessProofs.
Variable standardize : string → string.
Variable valid : gset string.
Implicit Types (items : list string) (raw : list (list string)).
Implicit Types (rep : Report).

Abbreviation kept := (kept_items standardize valid).
Abbreviation invalid := (invalid_items standardize valid).
Abbreviation cset := (clean_set standardize valid).

Lemma kept_items_snoc items x :
  kept (items ++ [x]) =
  kept items ++
  (if decide (standardize x ≠ ""%string ∧ standardize x ∈ valid)
   then [standardize x] else []).
Proof.
  unfold kept_items. by rewrite fmap_app, filter_app.
Qed.

Lemma invalid_items_snoc items x :
  invalid (items ++ [x]) =
  invalid items ++
  (if decide (standardize x ≠ ""%string ∧ standardize x ∉ valid)
   then [standardize x] else []).
Proof.
  unfold invalid_items. by rewrite fmap_app, filter_app.
Qed.

(** What the loop over the items of one transaction leaves. *)
Lemma clean_items_spec items rep :
  ∃ sd seen rep',
    foldl (clean_item standardize valid) ([], ∅, rep) items = (sd, seen, rep') ∧
    NoDup sd ∧ seen = list_to_set sd ∧
    list_to_set sd = cset items ∧
    total_transactions_before rep' = total_transactions_before rep ∧
    empty_transactions rep' = empty_transactions rep ∧
    single_item_transactions rep' = single_item_transactions rep ∧
    total_transactions_after rep' = total_transactions_after rep ∧
    total_items_after rep' = total_items_after rep ∧
    unique_products_after rep' = unique_products_after rep ∧
    invalid_items_instances rep' =
      invalid_items_instances rep + length (invalid items) ∧
    duplicate_items_instances rep' + length sd =
      duplicate_items_instances rep + length (kept items).
Proof.
  induction items as [|x items IH] using rev_ind.
  - exists [], ∅, rep. simpl. split_and!; first [done|lia|constructor].
  - destruct IH as (sd & seen & rep' & Hrun & Hnd & -> & Hset & H1 & H2 & H3
                    & H4 & H5 & H6 & Hinv & Hdup).
    rewrite foldl_app, Hrun. simpl. unfold clean_set in *.
    rewrite kept_items_snoc, invalid_items_snoc.
    destruct (decide (standardize x = ""%string)) as [Hb|Hb].
    { rewrite (decide_False (P := _ ∧ standardize x ∈ valid)) by (by intros [??]).
      rewrite (decide_False (P := _ ∧ standardize x ∉ valid)) by (by intros [??]).
      rewrite !(right_id_L [] (++)).
      exists sd, (list_to_set sd), rep'. split_and!; done. }
    destruct (decide (standardize x ∉ valid)) as [Hv|Hv].
    { rewrite (decide_False (P := _ ∧ standardize x ∈ valid)) by (by intros [??]).
      rewrite (decide_True (P := _ ∧ standardize x ∉ valid)) by (by split).
      rewrite !(right_id_L [] (++)), length_app. simpl.
      exists sd, (list_to_set sd), (incr_invalid rep').
      split_and!; try done; simpl; lia. }
    assert (Hin : standardize x ∈ valid).
    { destruct (decide (standardize x ∈ valid)) as [|Hn]; [done|].
      by destruct Hv. }
    rewrite (decide_True (P := _ ∧ standardize x ∈ valid)) by (by split).
    rewrite (decide_False (P := _ ∧ standardize x ∉ valid)) by (by intros [??]).
    rewrite (right_id_L [] (++)), length_app. simpl.
    destruct (decide (standardize x ∈ (list_to_set sd : gset string)))
      as [Hs|Hs].
    + exists sd, (list_to_set sd), (incr_duplicate rep').
      split_and!; try done; simpl; [|lia].
      rewrite list_to_set_app_L, <- Hset. set_solver.
    + exists (sd ++ [standardize x]), ({[standardize x]} ∪ list_to_set sd), rep'.
      split_and!; try done.
      * apply NoDup_app. split_and!; [done| |apply NoDup_singleton].
        intros y Hy ->%list_elem_of_singleton. apply Hs.
        by apply elem_of_list_to_set.
      * rewrite list_to_set_app_L. set_solver.
      * rewrite !list_to_set_app_L, Hset. done.
      * rewrite length_app. simpl. lia.
Qed.

(** What the loop over the raw transactions leaves, from a report that
    starts at zero. *)
Lemma clean_transactions_spec raw n :
  ∃ cleaned rep,
    foldl (clean_transaction standardize valid)
          ([], mkReport n 0 0 0 0 0 0 0) raw = (cleaned, rep) ∧
    cleaned = filter (λ t : Transaction, 2 ≤ size t) (cset <$> raw) ∧
    total_transactions_before rep = n ∧
    total_transactions_after rep = 0 ∧
    total_items_after rep = 0 ∧ unique_products_after rep = 0 ∧
    length raw =
      empty_transactions rep + single_item_transactions rep + length cleaned ∧
    sum_list (size <$> (cset <$> raw)) =
      single_item_transactions rep + sum_list (size <$> cleaned) ∧
    invalid_items_instances rep = sum_list (length <$> (invalid <$> raw)) ∧
    duplicate_items_instances rep + sum_list (size <$> (cset <$> raw)) =
      sum_list (length <$> (kept <$> raw)).
Proof.
  induction raw as [|items raw IH] using rev_ind.
  - eexists [], _. split; [done|]. simpl. split_and!; done.
  - destruct IH as (cleaned & rep & Hrun & Hcl & H1 & H2 & H3 & H4 & Hlen
                    & Hsz & Hinv & Hdup).
    rewrite foldl_app, Hrun. simpl.
    destruct (clean_items_spec items rep)
      as (sd & seen & rep' & -> & Hnd & _ & Hset & G1 & G2 & G3 & G4 & G5
          & G6 & Ginv & Gdup).
    assert (Hsize : size (cset items) = length sd).
    { rewrite <- Hset. by apply size_list_to_set. }
    rewrite !fmap_app, filter_app, length_app, !sum_list_with_app. simpl.
    rewrite filter_cons, filter_nil.
    destruct (decide (length sd = 0)) as [H0|H0];
      [|destruct (decide (length sd = 1)) as [H0'|H0']].
    + rewrite decide_False by lia. rewrite (right_id_L [] (++)).
      eexists cleaned, _. split; [done|]. simpl.
      split_and!; try done; lia.
    + rewrite decide_False by lia. rewrite (right_id_L [] (++)).
      eexists cleaned, _. split; [done|]. simpl.
      split_and!; try done; lia.
    + rewrite decide_True by lia.
      eexists _, rep'. split; [done|]. rewrite Hset.
      split_and!; try done; try lia.
      * by rewrite Hcl.
      * rewrite length_app. simpl. lia.
      * rewrite fmap_app, sum_list_with_app. simpl. lia.
Qed.
End PreprocessProofs.

Section PreprocessFacts.
Variable standardize : string → string.
Variable valid : gset string.
Implicit Types (items : list string) (raw : list (list string)).

Lemma preprocess_unfold raw :
  ∃ cleaned rep,
    preprocess_transactions standardize raw valid =
      (cleaned,
       set_after rep (length cleaned) (sum_list (size <$> cleaned))
                 (size (⋃ cleaned))) ∧
    foldl (clean_transaction standardize valid)
          ([], mkReport (length raw) 0 0 0 0 0 0 0) raw = (cleaned, rep).
Proof.
  unfold preprocess_transactions.
  destruct (foldl _ _ raw) as [cleaned rep] eqn:E.
  exists cleaned, rep. split; [|done]. do 3 f_equal.
  case_decide as HE; [|done]. by rewrite HE.
Qed.

Lemma items_partition items :
  length items =
  length (blank_items standardize items) +
  length (invalid_items standardize valid items) +
  length (kept_items standardize valid items).
Proof.
  unfold blank_items, invalid_items, kept_items.
  induction items as [|x items IH]; [done|].
  rewrite !fmap_cons, !filter_cons.
  destruct (decide (standardize x = ""%string)) as [Hb|Hb].
  { rewrite (decide_False (P := _ ∧ standardize x ∉ valid)) by (by intros [??]).
    rewrite (decide_False (P := _ ∧ standardize x ∈ valid)) by (by intros [??]).
    cbn [length]. lia. }
  destruct (decide (standardize x ∈ valid)) as [Hv|Hv].
  - rewrite (decide_False (P := _ ∧ standardize x ∉ valid)) by (by intros [??]).
    rewrite (decide_True (P := _ ∧ standardize x ∈ valid)) by (by split).
    cbn [length]. lia.
  - rewrite (decide_True (P := _ ∧ standardize x ∉ valid)) by (by split).
    rewrite (decide_False (P := _ ∧ standardize x ∈ valid)) by (by intros [??]).
    cbn [length]. lia.
Qed.

Lemma clean_set_facts items (s : string) :
  s ∈ clean_set standardize valid items ↔
  s ≠ ""%string ∧ s ∈ valid ∧ ∃ i, i ∈ items ∧ s = standardize i.
Proof.
  unfold clean_set, kept_items.
  rewrite elem_of_list_to_set, list_elem_of_filter, list_elem_of_fmap.
  naive_solver.
Qed.

Lemma size_union_list_le (l : list Transaction) :
  size (⋃ l) ≤ sum_list (size <$> l).
Proof.
  induction l as [|t l IH].
  { rewrite union_list_nil, size_empty. done. }
  rewrite union_list_cons, fmap_cons. cbn [sum_list_with id].
  rewrite size_union_alt.
  assert (size (⋃ l ∖ t) ≤ size (⋃ l)) by (apply subseteq_size; set_solver).
  lia.
Qed.

Lemma sum_sizes_ge_two (l : list Transaction) :
  Forall (λ t, 2 ≤ size t) l → 2 * length l ≤ sum_list (size <$> l).
Proof.
  induction 1 as [|t l Ht Hl IH]; [done|].
  rewrite fmap_cons. cbn [sum_list_with length id]. lia.
Qed.
End PreprocessFacts.

Section FilterAll.
Context {A : Type} (P : A → Prop) `{!∀ x, Decision (P x)}.

Lemma filter_all (l : list A) : Forall P l → filter P l = l.
Proof.
  induction 1 as [|x l Hx Hl IH]; [done|].
  rewrite filter_cons, decide_True by done. by rewrite IH.
Qed.

Lemma filter_none (l : list A) : Forall (λ x, ¬ P x) l → filter P l = [].
Proof.
  induction 1 as [|x l Hx Hl IH]; [done|].
  by rewrite filter_cons, decide_False.
Qed.
End FilterAll.

Section PreprocessSummary.
Variable standardize : string → string.
Variable valid : gset string.

(** The outcome of [preprocess_transactions], with everything the two
    loops keep. *)
Lemma preprocess_spec (raw : list (list string)) :
  ∃ cleaned rep,
    preprocess_transactions standardize raw valid =
      (cleaned,
       set_after rep (length cleaned) (sum_list (size <$> cleaned))
                 (size (⋃ cleaned))) ∧
    cleaned = filter (λ t : Transaction, 2 ≤ size t)
                     (clean_set standardize valid <$> raw) ∧
    total_transactions_before rep = length raw ∧
    length raw =
      empty_transactions rep + single_item_transactions rep + length cleaned ∧
    sum_list (size <$> (clean_set standardize valid <$> raw)) =
      single_item_transactions rep + sum_list (size <$> cleaned) ∧
    invalid_items_instances rep =
      sum_list (length <$> (invalid_items standardize valid <$> raw)) ∧
    duplicate_items_instances rep +
      sum_list (size <$> (clean_set standardize valid <$> raw)) =
      sum_list (length <$> (kept_items standardize valid <$> raw)).
Proof.
  destruct (preprocess_unfold standardize valid raw)
    as (cleaned & rep & Heq & Hrun).
  destruct (clean_transactions_spec standardize valid raw (length raw))
    as (cleaned' & rep' & Hrun' & Hcl & H1 & _ & _ & _ & Hlen & Hsz & Hinv
        & Hdup).
  rewrite Hrun in Hrun'. injection Hrun' as <- <-.
  exists cleaned, rep. split_and!; done.
Qed.

Lemma cleaned_well_formed (raw : list (list string)) (t : Transaction) :
  t ∈ filter (λ t : Transaction, 2 ≤ size t)
             (clean_set standardize valid <$> raw) →
  2 ≤ size t ∧ t ⊆ valid ∧ ""%string ∉ t ∧
  ∀ s, s ∈ t → ∃ items i, items ∈ raw ∧ i ∈ items ∧ s = standardize i.
Proof.
  rewrite list_elem_of_filter, list_elem_of_fmap.
  intros (Hsz & items & -> & Hitems). split_and!; [done| | |].
  - intros s (_ & Hs & _)%clean_set_facts. done.
  - intros (Hne & _)%clean_set_facts. done.
  - intros s (_ & _ & i & Hi & ->)%clean_set_facts. by exists items, i.
Qed.

Lemma sum_lengths_partition (raw : list (list string)) :
  sum_list (length <$> raw) =
  sum_list (length <$> (blank_items standardize <$> raw)) +
  sum_list (length <$> (invalid_items standardize valid <$> raw)) +
  sum_list (length <$> (kept_items standardize valid <$> raw)).
Proof.
  induction raw as [|items raw IH]; [done|].
  rewrite !fmap_cons. cbn [sum_list_with id].
  pose proof (items_partition standardize valid items). lia.
Qed.

(** On a catalogue of standardised names, a cleaned transaction is left
    as it is. *)
Lemma clean_set_elements (t : Transaction) :
  (∀ v, v ∈ valid → standardize v = v) →
  t ⊆ valid → ""%string ∉ t →
  kept_items standardize valid (elements t) = elements t ∧
  invalid_items standardize valid (elements t) = [] ∧
  clean_set standardize valid (elements t) = t.
Proof.
  intros Hfix Hsub Hne.
  assert (Hmap : standardize <$> elements t = elements t).
  { rewrite <- (list_fmap_id (elements t)) at 2.
    apply list_fmap_ext. intros i x Hx. apply Hfix, Hsub, elem_of_elements.
    by eapply list_elem_of_lookup_2. }
  assert (Hkept : kept_items standardize valid (elements t) = elements t).
  { unfold kept_items. rewrite Hmap. apply filter_all, Forall_forall.
    intros x Hx%elem_of_elements. split; [by intros ->|by apply Hsub]. }
  split_and!; [done| |].
  - unfold invalid_items. rewrite Hmap. apply filter_none, Forall_forall.
    intros x Hx%elem_of_elements [_ Hn]. by apply Hn, Hsub.
  - unfold clean_set. rewrite Hkept. apply list_to_set_elements_L.
Qed.
End PreprocessSummary.

(** X1: the cleaned transactions are, in order, the raw transactions read
    as sets of standardised, non-blank, valid items, those left with fewer
    than two items dropped. *)
Theorem preprocess_keeps_clean_sets (standardize : string → string)
    (raw : list (list string)) (valid : gset string) :
  (preprocess_transactions standardize raw valid).1 =
  filter (λ t : Transaction, 2 ≤ size t) (clean_set standardize valid <$> raw).
Proof.
  destruct (preprocess_spec standardize valid raw) as (cleaned & rep & -> & Hcl & _).
  done.
Qed.

(** X2: a cleaned transaction never has fewer than two items, never holds
    the empty string or a product outside the catalogue, and each of its
    items is the standardised form of an item of some raw transaction. *)
Theorem preprocess_output_well_formed (standardize : string → string)
    (raw : list (list string)) (valid : gset string) :
  Forall (λ t : Transaction,
            2 ≤ size t ∧ t ⊆ valid ∧ ""%string ∉ t ∧
            ∀ s, s ∈ t → ∃ items i, items ∈ raw ∧ i ∈ items ∧ s = standardize i)
         (preprocess_transactions standardize raw valid).1.
Proof.
  destruct (preprocess_spec standardize valid raw) as (cleaned & rep & -> & -> & _).
  apply Forall_forall. intros t. apply cleaned_well_formed.
Qed.

(** X3: the report counts every raw transaction once: as empty, as
    single-item, or as kept. *)
Theorem preprocess_counts_every_transaction (standardize : string → string)
    (raw : list (list string)) (valid : gset string) :
  let cleaned := (preprocess_transactions standardize raw valid).1 in
  let report := (preprocess_transactions standardize raw valid).2 in
  total_transactions_before report = length raw ∧
  total_transactions_after report = length cleaned ∧
  total_transactions_before report =
    empty_transactions report + single_item_transactions report +
    total_transactions_after report.
Proof.
  destruct (preprocess_spec standardize valid raw)
    as (cleaned & rep & -> & _ & Hb & Hlen & _).
  simpl. split_and!; [done|done|lia].
Qed.

(** X4: the report accounts for every item occurrence of the raw log: it
    is blank, or counted as invalid, or counted as a duplicate, or the one
    item of a single-item transaction, or an item of a cleaned
    transaction. *)
Theorem preprocess_accounts_for_every_item (standardize : string → string)
    (raw : list (list string)) (valid : gset string) :
  let report := (preprocess_transactions standardize raw valid).2 in
  sum_list (length <$> raw) =
  sum_list (length <$> (blank_items standardize <$> raw)) +
  invalid_items_instances report + duplicate_items_instances report +
  single_item_transactions report + total_items_after report.
Proof.
  destruct (preprocess_spec standardize valid raw)
    as (cleaned & rep & -> & _ & _ & _ & Hsz & Hinv & Hdup).
  simpl. rewrite (sum_lengths_partition standardize valid raw). lia.
Qed.

(** X5: in the report, the item total is the sum of the sizes of the
    cleaned transactions and is at least twice their number; the number of
    unique products is the number of distinct items of the cleaned
    transactions, at most the item total and at most the size of the
    catalogue. *)
Theorem preprocess_report_totals (standardize : string → string)
    (raw : list (list string)) (valid : gset string) :
  let cleaned := (preprocess_transactions standardize raw valid).1 in
  let report := (preprocess_transactions standardize raw valid).2 in
  total_items_after report = sum_list (size <$> cleaned) ∧
  2 * total_transactions_after report ≤ total_items_after report ∧
  unique_products_after report = size (universe cleaned) ∧
  unique_products_after report ≤ total_items_after report ∧
  unique_products_after report ≤ size valid.
Proof.
  destruct (preprocess_spec standardize valid raw)
    as (cleaned & rep & -> & Hcl & _).
  simpl.
  assert (Hwf : Forall (λ t : Transaction, 2 ≤ size t ∧ t ⊆ valid) cleaned).
  { apply Forall_forall. intros t Ht. rewrite Hcl in Ht.
    apply cleaned_well_formed in Ht as (? & ? & _). done. }
  split_and!; [done| |done| |].
  - apply sum_sizes_ge_two. eapply Forall_impl; [exact Hwf|]. by intros t [? _].
  - apply size_union_list_le.
  - apply subseteq_size. intros s (t & Ht & Hs)%elem_of_union_list.
    rewrite Forall_forall in Hwf. by apply (Hwf t Ht).
Qed.

(** X6: on a catalogue whose names are already standardised, cleaning is
    idempotent: the cleaned transactions, given back as lists, come out
    unchanged, with nothing counted as empty, single, duplicate or
    invalid. *)
Theorem preprocess_idempotent (standardize : string → string)
    (raw : list (list string)) (valid : gset string) :
  (∀ v, v ∈ valid → standardize v = v) →
  let cleaned := (preprocess_transactions standardize raw valid).1 in
  let report := (preprocess_transactions standardize raw valid).2 in
  preprocess_transactions standardize (elements <$> cleaned) valid =
  (cleaned,
   mkReport (length cleaned) 0 0 0 0 (length cleaned)
            (total_items_after report) (unique_products_after report)).
Proof.
  intros Hfix.
  destruct (preprocess_spec standardize valid raw)
    as (cleaned & rep & -> & Hcl & _).
  simpl.
  assert (Hwf : ∀ t, t ∈ cleaned →
            2 ≤ size t ∧
            kept_items standardize valid (elements t) = elements t ∧
            invalid_items standardize valid (elements t) = [] ∧
            clean_set standardize valid (elements t) = t).
  { intros t Ht. rewrite Hcl in Ht.
    apply cleaned_well_formed in Ht as (Hsz & Hsub & Hne & _).
    split; [done|]. by apply clean_set_elements. }
  clear Hcl.
  destruct (preprocess_spec standardize valid (elements <$> cleaned))
    as (cleaned' & rep' & -> & Hcl' & Hb & Hlen & Hsz & Hinv & Hdup).
  assert (Hset : clean_set standardize valid <$> (elements <$> cleaned) = cleaned).
  { rewrite <- list_fmap_compose. rewrite <- (list_fmap_id cleaned) at 2.
    apply list_fmap_ext. intros i t Ht%list_elem_of_lookup_2.
    by apply Hwf. }
  assert (Hcl : cleaned' = cleaned).
  { rewrite Hcl', Hset. apply filter_all, Forall_forall.
    intros t Ht. by apply Hwf. }
  clear Hcl'. subst cleaned'.
  assert (Hinv0 : sum_list (length <$> (invalid_items standardize valid <$>
                                        (elements <$> cleaned))) = 0).
  { clear -Hwf. induction cleaned as [|t l IH]; [done|].
    rewrite !fmap_cons. cbn [sum_list_with id].
    rewrite IH by (intros t' Ht'; apply Hwf; by right).
    destruct (Hwf t ltac:(left)) as (_ & _ & -> & _). done. }
  assert (Hkept : sum_list (length <$> (kept_items standardize valid <$>
                                        (elements <$> cleaned))) =
                  sum_list (size <$> cleaned)).
  { clear -Hwf. induction cleaned as [|t l IH]; [done|].
    rewrite !fmap_cons. cbn [sum_list_with id].
    rewrite IH by (intros t' Ht'; apply Hwf; by right).
    destruct (Hwf t ltac:(left)) as (_ & -> & _). done. }
  rewrite Hset in Hsz, Hdup. rewrite Hinv0 in Hinv. rewrite Hkept in Hdup.
  rewrite length_fmap in Hb, Hlen.
  f_equal. destruct rep' as [b e s d i a ti u]. simpl in *.
  unfold set_after. simpl. f_equal; lia.
Qed.

Lemma preprocess_idempotent_witness :
  preprocess_transactions id
    (elements <$> (preprocess_transactions id sample_raw sample_products).1)
    sample_products =
  ((preprocess_transactions id sample_raw sample_products).1,
   mkReport (length (preprocess_transactions id sample_raw sample_products).1)
            0 0 0 0
            (length (preprocess_transactions id sample_raw sample_products).1)
            (total_items_after
               (preprocess_transactions id sample_raw sample_products).2)
            (unique_products_after
               (preprocess_transactions id sample_raw sample_products).2)).
Proof.
  exact (preprocess_idempotent id sample_raw sample_products
           (λ v _, eq_refl)).
Defined.

(** X7: mining the cleaned transactions, with either miner, returns only
    non-empty itemsets of catalogue products. *)
Theorem mined_itemsets_are_valid_products (standardize : string → string)
    (raw : list (list string)) (valid : gset string) (fuel : nat)
    (min_support : Q) :
  let cleaned := (preprocess_transactions standardize raw valid).1 in
  size (universe cleaned) ≤ fuel →
  ∃ M, Apriori.apriori fuel cleaned min_support = Some (Ok M) ∧
       Eclat.eclat cleaned min_support = Ok M ∧
       ∀ I : Itemset, is_Some (M !! I) → I ≠ ∅ ∧ I ⊆ valid.
Proof.
  destruct (preprocess_spec standardize valid raw)
    as (cleaned & rep & -> & Hcl & _).
  simpl. intros Hfuel. destruct (decide (cleaned = [])) as [->|HT].
  - exists ∅. split_and!; [done|done|]. intros I [q Hq].
    by rewrite lookup_empty in Hq.
  - destruct (apriori_ok fuel cleaned min_support HT Hfuel) as (Ma & Ha & HMa).
    destruct (eclat_ok cleaned min_support HT) as (Me & He & HMe).
    exists Ma. split_and!; [done| |].
    + by rewrite (mining_result_unique cleaned min_support Ma Me).
    + intros I [q [[HI Hocc] _]%HMa]. split; [done|].
      pose proof (abs_threshold_pos min_support (length cleaned)).
      destruct (occurrences_pos_elem cleaned I ltac:(lia)) as (t & Ht & HIt).
      rewrite Hcl in Ht. apply cleaned_well_formed in Ht as (_ & Hsub & _).
      set_solver.
Qed.

Lemma mined_itemsets_are_valid_products_witness :
  ∃ M, Apriori.apriori 3 (preprocess_transactions id sample_raw sample_products).1
                       (1 # 2)%Q = Some (Ok M) ∧
       Eclat.eclat (preprocess_transactions id sample_raw sample_products).1
                   (1 # 2)%Q = Ok M ∧
       ∀ I : Itemset, is_Some (M !! I) → I ≠ ∅ ∧ I ⊆ sample_products.
Proof.
  apply (mined_itemsets_are_valid_products id sample_raw sample_products 3).
  vm_compute. lia.
Defined.

(** ** More on the two miners *)

Section MinersFacts.
Implicit Types (T : list Transaction) (I : Itemset).

Lemma elem_of_tidset T I (tid : nat) :
  tid ∈ tidset T I ↔ ∃ t, T !! tid = Some t ∧ I ⊆ t.
Proof.
  induction T as [|t T IH] using rev_ind.
  - rewrite tidset_nil. split; [by intros ?%not_elem_of_empty|].
    by intros (t & ? & _).
  - rewrite tidset_snoc, elem_of_union, IH. split.
    + intros [(t' & Ht' & Hsub)|Hin].
      * exists t'. split; [|done]. by apply lookup_app_l_Some.
      * case_decide; [|by apply not_elem_of_empty in Hin].
        apply elem_of_singleton in Hin as ->. exists t. split; [|done].
        by rewrite lookup_app_r, Nat.sub_diag.
    + intros (t' & Ht' & Hsub).
      destruct (decide (tid < length T)) as [Hlt|Hge].
      * left. exists t'. split; [|done]. by rewrite lookup_app_l in Ht'.
      * right. rewrite lookup_app_r in Ht' by lia.
        destruct (tid - length T) as [|k] eqn:E; [|by destruct k].
        simpl in Ht'. injection Ht' as ->. rewrite decide_True by done.
        apply elem_of_singleton. lia.
Qed.

Lemma occurrences_Permutation T T' I :
  T ≡ₚ T' → occurrences T I = occurrences T' I.
Proof. intros HP. unfold occurrences. by rewrite HP. Qed.

Lemma mining_result_Permutation T T' min_support (M : gmap Itemset Q) :
  T ≡ₚ T' → mining_result T min_support M → mining_result T' min_support M.
Proof.
  intros HP HM I q. rewrite (HM I q). unfold frequent.
  rewrite (occurrences_Permutation T T' I HP).
  by rewrite (Permutation_length HP).
Qed.

Lemma abs_threshold_mono (ms1 ms2 : Q) (n : nat) :
  (ms1 <= ms2)%Q → (abs_threshold ms1 n ≤ abs_threshold ms2 n)%Z.
Proof.
  intros Hle. unfold abs_threshold. apply Z.max_le_compat_l.
  apply Qfloor_resp_le, Qplus_le_compat; [|apply Qle_refl].
  apply Qmult_le_compat_r; [done|]. rewrite <- (Zle_Qle 0). lia.
Qed.

Lemma abs_threshold_le_length (min_support : Q) (n : nat) :
  (min_support <= 1)%Q → 1 ≤ n → (abs_threshold min_support n ≤ Z.of_nat n)%Z.
Proof.
  intros Hle Hn. unfold abs_threshold. apply Z.max_lub; [lia|].
  set (x := (min_support * inject_Z (Z.of_nat n) + eps)%Q).
  assert (Hx : (x < inject_Z (Z.of_nat n + 1))%Q).
  { unfold x. rewrite inject_Z_plus.
    apply Qle_lt_trans with (inject_Z (Z.of_nat n) + eps)%Q.
    - apply Qplus_le_compat; [|apply Qle_refl].
      rewrite <- (Qmult_1_l (inject_Z (Z.of_nat n))) at 2.
      apply Qmult_le_compat_r; [done|]. rewrite <- (Zle_Qle 0). lia.
    - apply Qplus_lt_r. reflexivity. }
  pose proof (Qfloor_le x) as Hfl.
  assert (Hlt : (inject_Z (Qfloor x) < inject_Z (Z.of_nat n + 1))%Q)
    by (by eapply Qle_lt_trans).
  rewrite <- Zlt_Qlt in Hlt. lia.
Qed.
End MinersFacts.

(** X8: the vertical index of [eclat] has one entry per item that occurs,
    keyed by the singleton of the item, holding exactly the positions of the
    transactions that contain the item; an item that occurs nowhere has no
    entry. *)
Theorem vertical_index_positions (transactions : list Transaction)
    (K : Itemset) (S : gset nat) :
  Eclat.build_tidsets transactions !! K = Some S ↔
  ∃ item : Item,
    K = {[item]} ∧ S ≠ ∅ ∧
    ∀ tid, tid ∈ S ↔ ∃ t, transactions !! tid = Some t ∧ item ∈ t.
Proof.
  rewrite build_tidsets_lookup. split.
  - intros (a & -> & -> & Hne). exists a. split_and!; [done|done|].
    intros tid. rewrite elem_of_tidset. by setoid_rewrite singleton_subseteq_l.
  - intros (a & -> & Hne & HS). exists a.
    assert (S = tidset transactions {[a]}) as ->; [|done].
    apply set_eq. intros tid. rewrite HS, elem_of_tidset.
    by setoid_rewrite singleton_subseteq_l.
Qed.

(** X9: the first pass of [apriori] counts, for each item that occurs, the
    transactions that contain it; no item is stored with a count of zero. *)
Theorem item_counts_are_occurrences (transactions : list Transaction)
    (item : Item) (c : nat) :
  Apriori.count_items transactions !! item = Some c ↔
  0 < c ∧ c = length (filter (λ t : Transaction, item ∈ t) transactions).
Proof.
  rewrite count_items_lookup. unfold occurrences.
  rewrite (list_filter_iff (λ t : Transaction, {[item]} ⊆ t)
                           (λ t : Transaction, item ∈ t))
    by (intros t; apply singleton_subseteq_l).
  tauto.
Qed.

(** X10: raising [min_support] only removes itemsets: what either miner
    returns for the larger threshold is contained, supports included, in
    what it returns for the smaller one. *)
Theorem raising_min_support_only_removes (fuel : nat) (T : list Transaction)
    (ms1 ms2 : Q) :
  (ms1 <= ms2)%Q → size (universe T) ≤ fuel →
  ∃ M1 M2,
    Apriori.apriori fuel T ms1 = Some (Ok M1) ∧ Eclat.eclat T ms1 = Ok M1 ∧
    Apriori.apriori fuel T ms2 = Some (Ok M2) ∧ Eclat.eclat T ms2 = Ok M2 ∧
    M2 ⊆ M1.
Proof.
  intros Hle Hfuel. destruct (decide (T = [])) as [->|HT].
  - exists ∅, ∅. split_and!; done.
  - destruct (apriori_ok fuel T ms1 HT Hfuel) as (M1 & Ha1 & HM1).
    destruct (eclat_ok T ms1 HT) as (M1' & He1 & HM1').
    destruct (apriori_ok fuel T ms2 HT Hfuel) as (M2 & Ha2 & HM2).
    destruct (eclat_ok T ms2 HT) as (M2' & He2 & HM2').
    rewrite (mining_result_unique T ms1 M1' M1) in He1 by done.
    rewrite (mining_result_unique T ms2 M2' M2) in He2 by done.
    exists M1, M2. split_and!; try done.
    apply map_subseteq_spec. intros I q [[HI Hocc] ->]%HM2. apply HM1.
    split; [|done]. split; [done|].
    pose proof (abs_threshold_mono ms1 ms2 (length T) Hle). lia.
Qed.

Lemma raising_min_support_only_removes_witness :
  ∃ M1 M2,
    Apriori.apriori 3 scenario_1 (1 # 2)%Q = Some (Ok M1) ∧
    Eclat.eclat scenario_1 (1 # 2)%Q = Ok M1 ∧
    Apriori.apriori 3 scenario_1 (3 # 4)%Q = Some (Ok M2) ∧
    Eclat.eclat scenario_1 (3 # 4)%Q = Ok M2 ∧
    M2 ⊆ M1.
Proof.
  apply raising_min_support_only_removes; [discriminate|vm_compute; lia].
Defined.

(** X11: the order of the transactions does not matter: on a permutation
    of the list both miners return the same mapping. *)
Theorem miners_ignore_transaction_order (fuel : nat) (T T' : list Transaction)
    (min_support : Q) :
  T ≡ₚ T' → size (universe T) ≤ fuel →
  ∃ M,
    Apriori.apriori fuel T min_support = Some (Ok M) ∧
    Apriori.apriori fuel T' min_support = Some (Ok M) ∧
    Eclat.eclat T min_support = Ok M ∧
    Eclat.eclat T' min_support = Ok M.
Proof.
  intros HP Hfuel. destruct (decide (T = [])) as [->|HT].
  - apply Permutation_nil_l in HP as <-. exists ∅. split_and!; done.
  - assert (HT' : T' ≠ []).
    { intros ->. by apply Permutation_nil_r in HP. }
    assert (Hfuel' : size (universe T') ≤ fuel).
    { unfold universe in *. by rewrite <- HP. }
    destruct (apriori_ok fuel T min_support HT Hfuel) as (M & Ha & HM).
    destruct (eclat_ok T min_support HT) as (Me & He & HMe).
    destruct (apriori_ok fuel T' min_support HT' Hfuel') as (Ma' & Ha' & HMa').
    destruct (eclat_ok T' min_support HT') as (Me' & He' & HMe').
    pose proof (mining_result_Permutation T T' min_support M HP HM) as HM'.
    rewrite (mining_result_unique T min_support Me M) in He by done.
    rewrite (mining_result_unique T' min_support Ma' M) in Ha' by done.
    rewrite (mining_result_unique T' min_support Me' M) in He' by done.
    exists M. split_and!; done.
Qed.

Lemma miners_ignore_transaction_order_witness :
  ∃ M,
    Apriori.apriori 3 scenario_1 (1 # 2)%Q = Some (Ok M) ∧
    Apriori.apriori 3 (reverse scenario_1) (1 # 2)%Q = Some (Ok M) ∧
    Eclat.eclat scenario_1 (1 # 2)%Q = Ok M ∧
    Eclat.eclat (reverse scenario_1) (1 # 2)%Q = Ok M.
Proof.
  apply miners_ignore_transaction_order;
    [symmetry; apply reverse_Permutation|vm_compute; lia].
Defined.

(** X12: with [min_support] at most [1], a non-empty itemset contained in
    every transaction of a non-empty list is always returned, with a
    support equal to [1]. *)
Theorem itemset_of_every_transaction_is_frequent (fuel : nat)
    (T : list Transaction) (min_support : Q) (I : Itemset) :
  T ≠ [] → I ≠ ∅ → Forall (λ t, I ⊆ t) T → (min_support <= 1)%Q →
  size (universe T) ≤ fuel →
  ∃ M q,
    Apriori.apriori fuel T min_support = Some (Ok M) ∧
    Eclat.eclat T min_support = Ok M ∧
    M !! I = Some q ∧ (q == 1)%Q.
Proof.
  intros HT HI Hall Hms Hfuel.
  destruct (apriori_ok fuel T min_support HT Hfuel) as (M & Ha & HM).
  destruct (eclat_ok T min_support HT) as (Me & He & HMe).
  rewrite (mining_result_unique T min_support Me M) in He by done.
  assert (Hocc : occurrences T I = length T).
  { unfold occurrences. by rewrite filter_all. }
  assert (Hn : 1 ≤ length T) by (destruct T; [done|simpl; lia]).
  exists M, (py_float (occurrences T I) / py_float (length T))%Q.
  split_and!; [done|done| |].
  - apply HM. split; [|done]. split; [done|]. rewrite Hocc.
    by apply abs_threshold_le_length.
  - rewrite Hocc. apply Qmult_inv_r. unfold py_float.
    intros Hz. unfold Qeq in Hz. simpl in Hz. lia.
Qed.

Lemma itemset_of_every_transaction_is_frequent_witness :
  ∃ M q,
    Apriori.apriori 3 scenario_5 1%Q = Some (Ok M) ∧
    Eclat.eclat scenario_5 1%Q = Ok M ∧
    M !! ({[ "x"%string; "y"%string ]} : Itemset) = Some q ∧ (q == 1)%Q.
Proof.
  apply itemset_of_every_transaction_is_frequent.
  - discriminate.
  - set_solver.
  - unfold scenario_5. apply Forall_singleton. set_solver.
  - discriminate.
  - vm_compute. lia.
Defined.

(** ** More on the rules *)

Section RulesFacts.
Implicit Types (freq : gmap Itemset Q) (mc : Q) (r : Rule).

(** What a rule of [rules_of] is made of. *)
Lemma rule_anatomy freq mc r :
  r ∈ rules_of freq mc →
  ∃ itemset sx sy,
    antecedent r ∪ consequent r = itemset ∧
    consequent r = itemset ∖ antecedent r ∧
    antecedent r ⊆ itemset ∧ antecedent r ≠ ∅ ∧ antecedent r ≠ itemset ∧
    2 ≤ size itemset ∧
    freq !! itemset = Some (support r) ∧
    freq !! antecedent r = Some sx ∧
    freq !! consequent r = Some sy ∧
    ¬ (sx == 0)%Q ∧ (mc <= confidence r)%Q ∧
    confidence r = (support r / sx)%Q ∧
    lift r = (if Qlt_le_dec 0 (sx * sy)
              then support r / (sx * sy) else 0)%Q.
Proof.
  intros (itemset & sxy & tuple & Hl & Hsz & Ht & Hr)%elem_of_rules_of.
  apply elem_of_emitted in Hr as (sx & sy & Hx & Hy & HC & Hsx & Hc & ->).
  simpl.
  destruct (proj1 (candidate_splits_subsets itemset (list_to_set tuple)))
    as (Hsub & Hne & Hneq); [by exists tuple|].
  exists itemset, sx, sy. split_and!; try done.
  apply set_eq. intros x.
  destruct (decide (x ∈ (list_to_set tuple : Itemset))); set_solver.
Qed.


Lemma emitted_split freq mc (itemset : Itemset) (sxy : Q)
    (tuple : list Item) r :
  tuple ∈ candidate_splits (elements itemset) →
  r ∈ emitted freq mc itemset sxy tuple →
  antecedent r = list_to_set tuple ∧ support r = sxy ∧
  antecedent r ∪ consequent r = itemset.
Proof.
  intros Ht (sx & sy & _ & _ & _ & _ & _ & ->)%elem_of_emitted. simpl.
  split_and!; [done|done|].
  destruct (proj1 (candidate_splits_subsets itemset (list_to_set tuple)))
    as (Hsub & _); [by exists tuple|].
  apply set_eq. intros x.
  destruct (decide (x ∈ (list_to_set tuple : Itemset))); set_solver.
Qed.

Lemma emitted_NoDup freq mc (itemset : Itemset) (sxy : Q)
    (tuple : list Item) :
  NoDup (emitted freq mc itemset sxy tuple).
Proof.
  unfold emitted. repeat case_match;
    first [apply NoDup_nil_2|apply NoDup_singleton].
Qed.

Lemma rules_of_NoDup freq mc : NoDup (rules_of freq mc).
Proof.
  unfold rules_of. apply NoDup_bind.
  - intros [I1 s1] [I2 s2] r H1%elem_of_map_to_list H2%elem_of_map_to_list
           Hr1 Hr2.
    simpl in Hr1, Hr2.
    destruct (decide (size I1 < 2)); [by apply elem_of_nil in Hr1|].
    destruct (decide (size I2 < 2)); [by apply elem_of_nil in Hr2|].
    apply list_elem_of_bind in Hr1 as (t1 & Hr1 & Ht1).
    apply list_elem_of_bind in Hr2 as (t2 & Hr2 & Ht2).
    destruct (emitted_split _ _ _ _ _ _ Ht1 Hr1) as (_ & _ & HI1).
    destruct (emitted_split _ _ _ _ _ _ Ht2 Hr2) as (_ & _ & HI2).
    assert (I1 = I2) as <- by congruence.
    rewrite H1 in H2. by injection H2 as <-.
  - intros [I s] _. simpl. case_decide; [apply NoDup_nil_2|].
    apply NoDup_bind.
    + intros t1 t2 r Ht1 Ht2 Hr1 Hr2.
      destruct (emitted_split _ _ _ _ _ _ Ht1 Hr1) as (HA1 & _).
      destruct (emitted_split _ _ _ _ _ _ Ht2 Hr2) as (HA2 & _).
      apply elem_of_candidate_splits in Ht1 as [Hs1 _].
      apply elem_of_candidate_splits in Ht2 as [Hs2 _].
      apply (sublist_eq_of_elems (elements I)); [apply NoDup_elements|done..|].
      intros x. rewrite <- !(elem_of_list_to_set (C := Itemset)).
      by rewrite <- HA1, <- HA2.
    + intros t _. apply emitted_NoDup.
    + eapply NoDup_fmap_1, NoDup_candidate_splits.
  - apply NoDup_map_to_list.
Qed.

Lemma rule_determined freq mc r1 r2 :
  r1 ∈ rules_of freq mc → r2 ∈ rules_of freq mc →
  antecedent r1 = antecedent r2 → consequent r1 = consequent r2 → r1 = r2.
Proof.
  intros (I1 & sx1 & sy1 & HI1 & _ & _ & _ & _ & _ & Hs1 & Hx1 & Hy1 & _ & _
          & Hc1 & Hl1)%rule_anatomy
         (I2 & sx2 & sy2 & HI2 & _ & _ & _ & _ & _ & Hs2 & Hx2 & Hy2 & _ & _
          & Hc2 & Hl2)%rule_anatomy HA HC.
  destruct r1 as [A1 C1 s1 c1 l1], r2 as [A2 C2 s2 c2 l2]. simpl in *.
  subst A2 C2. rewrite HI1 in HI2. subst I2.
  rewrite Hs1 in Hs2. injection Hs2 as <-.
  rewrite Hx1 in Hx2. injection Hx2 as <-.
  rewrite Hy1 in Hy2. injection Hy2 as <-.
  by subst.
Qed.

Lemma div_by_float_le (a b n : nat) :
  a ≤ b → (py_float a / py_float n <= py_float b / py_float n)%Q.
Proof.
  intros Hab. unfold Qdiv. apply Qmult_le_compat_r.
  - unfold py_float. rewrite <- Zle_Qle. lia.
  - apply Qinv_le_0_compat. unfold py_float. rewrite <- (Zle_Qle 0). lia.
Qed.

End RulesFacts.

Section HarnessFacts.
Implicit Types (T : list Transaction) (M : gmap Itemset Q).

(** Both harnesses return, with the mined mapping and the rules read off
    it. *)
Lemma harness_ok fuel (s e s' e' : Q) T (ms mc : Q) :
  size (universe T) ≤ fuel →
  ∃ M,
    (T ≠ [] → mining_result T ms M) ∧ (T = [] → M = ∅) ∧
    run_apriori_with_timing fuel s e T ms mc =
      Some (Ok (mkTimedResult M (rules_of M mc) ((e - s) * 1000)%Q)) ∧
    run_eclat_with_timing s' e' T ms mc =
      Ok (mkTimedResult M (rules_of M mc) ((e' - s') * 1000)%Q).
Proof.
  intros Hfuel. unfold run_apriori_with_timing, run_eclat_with_timing.
  rewrite eclat_generate_association_rules_eq.
  destruct (decide (T = [])) as [->|HT].
  - exists ∅. destruct (mining_result_nil fuel ms) as [-> ->].
    cbn [mbind result_bind]. rewrite !generate_association_rules_ok.
    split_and!; done.
  - destruct (apriori_ok fuel T ms HT Hfuel) as (M & -> & HM).
    destruct (eclat_ok T ms HT) as (Me & -> & HMe).
    rewrite (mining_result_unique T ms Me M) by done.
    cbn [mbind result_bind]. rewrite !generate_association_rules_ok.
    exists M. split_and!; done.
Qed.

Lemma rules_of_empty mc : rules_of ∅ mc = [].
Proof. unfold rules_of. by rewrite map_to_list_empty. Qed.

(** The rules read off a mined mapping. *)
Lemma mined_rule_anatomy T ms mc M (r : Rule) :
  T ≠ [] → mining_result T ms M → r ∈ rules_of M mc →
  let I := antecedent r ∪ consequent r in
  let n := py_float (length T) in
  1 ≤ occurrences T I ∧ occurrences T I ≤ occurrences T (antecedent r) ∧
  1 ≤ occurrences T (consequent r) ∧
  support r = (py_float (occurrences T I) / n)%Q ∧
  confidence r =
    ((py_float (occurrences T I) / n) /
     (py_float (occurrences T (antecedent r)) / n))%Q ∧
  lift r =
    ((py_float (occurrences T I) / n) /
     ((py_float (occurrences T (antecedent r)) / n) *
      (py_float (occurrences T (consequent r)) / n)))%Q ∧
  (mc <= confidence r)%Q.
Proof.
  intros HT HM (I & sx & sy & HI & _ & Hsub & _ & _ & _ & Hs & Hx & Hy & _
                & Hmc & Hc & Hl)%rule_anatomy.
  simpl. rewrite HI.
  pose proof (abs_threshold_pos ms (length T)) as Hthr.
  apply HM in Hs as [[_ HoI] Hs]. apply HM in Hx as [[_ HoA] ->].
  apply HM in Hy as [[_ HoC] ->].
  pose proof (occurrences_anti T (antecedent r) I Hsub).
  pose proof (occurrences_le_length T (antecedent r)).
  pose proof (occurrences_le_length T (consequent r)).
  destruct (support_bounds (occurrences T (antecedent r)) (length T))
    as [HposA _]; [lia|lia|].
  destruct (support_bounds (occurrences T (consequent r)) (length T))
    as [HposC _]; [lia|lia|].
  split_and!; [lia|done|lia|done|by rewrite Hc, Hs| |done].
  rewrite Hl, Hs. destruct (Qlt_le_dec _ _) as [|Hle]; [done|].
  exfalso. eapply Qlt_not_le; [|exact Hle]. by apply Qmult_lt_0_compat.
Qed.
End HarnessFacts.

(** X13: the fields of every rule are read off the mapping: its support is
    the support stored for antecedent ∪ consequent, its confidence is that
    support divided by the antecedent's, and its lift is that support
    divided by the product of the two supports when the product is
    positive, [0] otherwise. *)
Theorem rule_fields_from_mapping (freq_itemsets : gmap Itemset Q)
    (min_confidence : Q) :
  ∃ rules,
    Apriori.generate_association_rules freq_itemsets min_confidence = Ok rules ∧
    Eclat.generate_association_rules freq_itemsets min_confidence = Ok rules ∧
    Forall (λ r, ∃ supp_X supp_Y,
                freq_itemsets !! (antecedent r ∪ consequent r)
                  = Some (support r) ∧
                freq_itemsets !! antecedent r = Some supp_X ∧
                freq_itemsets !! consequent r = Some supp_Y ∧
                confidence r = (support r / supp_X)%Q ∧
                ((0 < supp_X * supp_Y)%Q →
                 lift r = (support r / (supp_X * supp_Y))%Q) ∧
                ((supp_X * supp_Y <= 0)%Q → lift r = 0%Q)) rules.
Proof.
  exists (rules_of freq_itemsets min_confidence).
  split_and!; [apply generate_association_rules_ok..|].
  apply Forall_forall.
  intros r (I & sx & sy & HI & _ & _ & _ & _ & _ & Hs & Hx & Hy & _ & _ & Hc
            & Hl)%rule_anatomy.
  exists sx, sy. rewrite HI. split_and!; try done.
  - intros Hpos. rewrite Hl. destruct (Qlt_le_dec _ _) as [|Hle]; [done|].
    exfalso. by eapply Qlt_not_le.
  - intros Hle. rewrite Hl. destruct (Qlt_le_dec _ _) as [Hpos|]; [|done].
    exfalso. by eapply Qlt_not_le.
Qed.

(** X14: no rule is returned twice: no two rules of the list have the same
    antecedent and the same consequent. *)
Theorem no_duplicate_rules (freq_itemsets : gmap Itemset Q)
    (min_confidence : Q) :
  ∃ rules,
    Apriori.generate_association_rules freq_itemsets min_confidence = Ok rules ∧
    Eclat.generate_association_rules freq_itemsets min_confidence = Ok rules ∧
    NoDup ((λ r, (antecedent r, consequent r)) <$> rules).
Proof.
  exists (rules_of freq_itemsets min_confidence).
  split_and!; [apply generate_association_rules_ok..|].
  apply NoDup_fmap_2_strong; [|apply rules_of_NoDup].
  intros r1 r2 H1 H2 [= HA HC]. by eapply rule_determined.
Qed.

(** X15: a rule and its reverse, when both are returned, have the same
    support and equal lifts. *)
Theorem reversed_rule_same_support_and_lift (freq_itemsets : gmap Itemset Q)
    (min_confidence : Q) :
  ∃ rules,
    Apriori.generate_association_rules freq_itemsets min_confidence = Ok rules ∧
    Eclat.generate_association_rules freq_itemsets min_confidence = Ok rules ∧
    ∀ r1 r2,
      r1 ∈ rules → r2 ∈ rules →
      antecedent r1 = consequent r2 → consequent r1 = antecedent r2 →
      support r1 = support r2 ∧ (lift r1 == lift r2)%Q.
Proof.
  exists (rules_of freq_itemsets min_confidence).
  split_and!; [apply generate_association_rules_ok..|].
  intros r1 r2
    (I1 & sx1 & sy1 & HI1 & _ & _ & _ & _ & _ & Hs1 & Hx1 & Hy1 & _ & _ & _
     & Hl1)%rule_anatomy
    (I2 & sx2 & sy2 & HI2 & _ & _ & _ & _ & _ & Hs2 & Hx2 & Hy2 & _ & _ & _
     & Hl2)%rule_anatomy HA HC.
  rewrite HA, HC in HI1. rewrite (comm_L (∪)) in HI1.
  rewrite HI1 in HI2. subst I2.
  rewrite Hs1 in Hs2. injection Hs2 as Hs.
  rewrite HA, Hy2 in Hx1. injection Hx1 as E1.
  rewrite HC, Hx2 in Hy1. injection Hy1 as E2. subst sx1 sy1.
  split; [done|]. rewrite Hl1, Hl2, Hs.
  destruct (Qlt_le_dec 0 (sy2 * sx2)) as [H1|H1],
           (Qlt_le_dec 0 (sx2 * sy2)) as [H2|H2].
  - by rewrite (Qmult_comm sy2 sx2).
  - exfalso. rewrite (Qmult_comm sy2 sx2) in H1. by eapply Qlt_not_le.
  - exfalso. rewrite (Qmult_comm sy2 sx2) in H1. by eapply Qlt_not_le.
  - reflexivity.
Qed.

(** X16: on the same transactions and thresholds the two timed runs both
    return, with the same frequent itemsets and with the same rules up to
    their order, hence the same number of rules; each reports the
    difference of its own two clock readings, in milliseconds. *)
Theorem timed_runs_agree (fuel : nat) (start_a end_a start_e end_e : Q)
    (T : list Transaction) (min_support min_confidence : Q) :
  size (universe T) ≤ fuel →
  ∃ res_a res_e,
    run_apriori_with_timing fuel start_a end_a T min_support min_confidence
      = Some (Ok res_a) ∧
    run_eclat_with_timing start_e end_e T min_support min_confidence
      = Ok res_e ∧
    frequent_itemsets res_a = frequent_itemsets res_e ∧
    rules res_a ≡ₚ rules res_e ∧
    length (rules res_a) = length (rules res_e) ∧
    time_ms res_a = ((end_a - start_a) * 1000)%Q ∧
    time_ms res_e = ((end_e - start_e) * 1000)%Q.
Proof.
  intros Hfuel.
  destruct (harness_ok fuel start_a end_a start_e end_e T min_support
                       min_confidence Hfuel) as (M & _ & _ & -> & ->).
  eexists _, _. split_and!; done.
Qed.

Lemma timed_runs_agree_witness :
  ∃ res_a res_e,
    run_apriori_with_timing 3 0 1 scenario_1 (1 # 2)%Q (1 # 2)%Q
      = Some (Ok res_a) ∧
    run_eclat_with_timing 0 2 scenario_1 (1 # 2)%Q (1 # 2)%Q = Ok res_e ∧
    frequent_itemsets res_a = frequent_itemsets res_e ∧
    rules res_a ≡ₚ rules res_e ∧
    length (rules res_a) = length (rules res_e) ∧
    time_ms res_a = ((1 - 0) * 1000)%Q ∧
    time_ms res_e = ((2 - 0) * 1000)%Q.
Proof. apply timed_runs_agree. vm_compute. lia. Defined.





(** X19: with [min_confidence] above [1] a timed run on mined data returns
    no rule, whatever the transactions. *)
Theorem min_confidence_above_one_no_rules (fuel : nat) (start end_ : Q)
    (T : list Transaction) (min_support min_confidence : Q) :
  (1 < min_confidence)%Q → size (universe T) ≤ fuel →
  ∃ res_a res_e,
    run_apriori_with_timing fuel start end_ T min_support min_confidence
      = Some (Ok res_a) ∧
    run_eclat_with_timing start end_ T min_support min_confidence
      = Ok res_e ∧
    rules res_a = [] ∧ rules res_e = [].
Proof.
  intros Hmc Hfuel.
  destruct (harness_ok fuel start end_ start end_ T min_support
                       min_confidence Hfuel) as (M & HM & HE & -> & ->).
  eexists _, _. split; [done|]. split; [done|]. simpl.
  assert (Hnil : rules_of M min_confidence = []); [|done].
  destruct (decide (T = [])) as [HT|HT].
  - rewrite (HE HT). apply rules_of_empty.
  - specialize (HM HT).
    destruct (rules_of M min_confidence) as [|r l] eqn:E; [done|]. exfalso.
    assert (Hr : r ∈ rules_of M min_confidence) by (rewrite E; left).
    destruct (mined_rule_anatomy T min_support min_confidence M r HT HM Hr)
      as (HI & HIA & HC & Hs & Hc & Hl & Hle).
    simpl in *.
    pose proof (occurrences_le_length T (antecedent r)) as HAn.
    destruct (support_bounds (occurrences T (antecedent r)) (length T))
      as [HposA _]; [lia|lia|].
    assert (Hc1 : (confidence r <= 1)%Q).
    { rewrite Hc. apply Qle_shift_div_r; [done|]. rewrite Qmult_1_l.
      by apply div_by_float_le. }
    eapply Qlt_not_le; [exact Hmc|]. by eapply Qle_trans.
Qed.

Lemma min_confidence_above_one_no_rules_witness :
  ∃ res_a res_e,
    run_apriori_with_timing 3 0 1 scenario_1 (1 # 2)%Q 2%Q = Some (Ok res_a) ∧
    run_eclat_with_timing 0 1 scenario_1 (1 # 2)%Q 2%Q = Ok res_e ∧
    rules res_a = [] ∧ rules res_e = [].
Proof.
  apply min_confidence_above_one_no_rules; [reflexivity|vm_compute; lia].
Defined.

(** ** The recommendation panel *)

Section Recommendations.
Implicit Types (r y : Rule) (l : list Rule) (c : Q).

Lemma strength_label_spec c :
  (App.strength_label c = "Strong"%string ↔ (7 # 10 <= c)%Q) ∧
  (App.strength_label c = "Moderate"%string ↔
   (1 # 2 <= c)%Q ∧ (c < 7 # 10)%Q) ∧
  (App.strength_label c = "Weak"%string ↔ (c < 1 # 2)%Q).
Proof.
  unfold App.strength_label.
  assert (H57 : (1 # 2 <= 7 # 10)%Q) by discriminate.
  destruct (Qle_bool (7 # 10) c) eqn:E7.
  { apply Qle_bool_iff in E7. split_and!; split; try done.
    - intros [_ Hlt]. exfalso. exact (Qlt_not_le _ _ Hlt E7).
    - intros Hlt. exfalso. apply (Qlt_not_le _ _ Hlt).
      by eapply Qle_trans. }
  assert (N7 : (c < 7 # 10)%Q).
  { apply Qnot_le_lt. rewrite <- Qle_bool_iff. congruence. }
  destruct (Qle_bool (1 # 2) c) eqn:E5.
  { apply Qle_bool_iff in E5. split_and!; split; try done.
    - intros Hle. exfalso. exact (Qlt_not_le _ _ N7 Hle).
    - intros Hlt. exfalso. exact (Qlt_not_le _ _ Hlt E5). }
  assert (N5 : (c < 1 # 2)%Q).
  { apply Qnot_le_lt. rewrite <- Qle_bool_iff. congruence. }
  split_and!; split; try done.
  - intros Hle. exfalso. exact (Qlt_not_le _ _ N7 Hle).
  - intros [Hle _]. exfalso. exact (Qlt_not_le _ _ N5 Hle).
Qed.

Lemma insert_by_confidence_Permutation r l :
  App.insert_by_confidence r l ≡ₚ r :: l.
Proof.
  induction l as [|y l IH]; [done|]. simpl.
  destruct (Qlt_le_dec _ _); [|done].
  rewrite IH. apply Permutation_swap.
Qed.

Lemma sort_by_confidence_desc_Permutation l :
  App.sort_by_confidence_desc l ≡ₚ l.
Proof.
  induction l as [|r l IH]; [done|]. simpl.
  by rewrite insert_by_confidence_Permutation, IH.
Qed.

Lemma insert_by_confidence_sorted r l :
  StronglySorted (λ a b, (confidence b <= confidence a)%Q) l →
  StronglySorted (λ a b, (confidence b <= confidence a)%Q)
                 (App.insert_by_confidence r l).
Proof.
  induction 1 as [|y l Hl IH Hy]; simpl.
  - repeat constructor.
  - destruct (Qlt_le_dec (confidence r) (confidence y)) as [Hlt|Hle].
    + constructor; [done|].
      rewrite insert_by_confidence_Permutation. constructor; [|done].
      by apply Qlt_le_weak.
    + constructor; [by constructor|]. constructor; [done|].
      eapply Forall_impl; [exact Hy|]. intros z Hz. simpl in Hz.
      by eapply Qle_trans.
Qed.

Lemma sort_by_confidence_desc_sorted l :
  StronglySorted (λ a b, (confidence b <= confidence a)%Q)
                 (App.sort_by_confidence_desc l).
Proof.
  induction l as [|r l IH]; simpl; [constructor|].
  by apply insert_by_confidence_sorted.
Qed.

(** Inserting does not move a rule past a rule of equal confidence. *)
Lemma insert_by_confidence_stable r l c :
  filter (λ x, Qeq_bool (confidence x) c = true)
         (App.insert_by_confidence r l) =
  filter (λ x, Qeq_bool (confidence x) c = true) (r :: l).
Proof.
  induction l as [|y l IH]; [done|]. simpl.
  destruct (Qlt_le_dec (confidence r) (confidence y)) as [Hlt|Hle]; [|done].
  rewrite (filter_cons _ y), IH, !filter_cons.
  destruct (decide (Qeq_bool (confidence r) c = true)) as [Hr|Hr];
    destruct (decide (Qeq_bool (confidence y) c = true)) as [Hy|Hy];
    try done.
  exfalso. apply Qeq_bool_eq in Hr, Hy. rewrite Hr, Hy in Hlt.
  by apply Qlt_irrefl in Hlt.
Qed.

Lemma sort_by_confidence_desc_stable l c :
  filter (λ x, Qeq_bool (confidence x) c = true)
         (App.sort_by_confidence_desc l) =
  filter (λ x, Qeq_bool (confidence x) c = true) l.
Proof.
  induction l as [|r l IH]; [done|]. simpl.
  rewrite insert_by_confidence_stable, !filter_cons, IH. done.
Qed.
End Recommendations.

(** X20: the panel never labels a rule "Weak" when the rules were generated
    with [min_confidence] of at least 0.5, and labels every rule "Strong"
    when they were generated with at least 0.7. *)
Theorem labels_follow_min_confidence (freq_itemsets : gmap Itemset Q)
    (min_confidence : Q) :
  ∃ rules,
    Apriori.generate_association_rules freq_itemsets min_confidence = Ok rules ∧
    Eclat.generate_association_rules freq_itemsets min_confidence = Ok rules ∧
    ((1 # 2 <= min_confidence)%Q →
     Forall (λ r, App.strength_label (confidence r) ≠ "Weak"%string) rules) ∧
    ((7 # 10 <= min_confidence)%Q →
     Forall (λ r, App.strength_label (confidence r) = "Strong"%string) rules).
Proof.
  exists (rules_of freq_itemsets min_confidence).
  split_and!; [apply generate_association_rules_ok..| |].
  - intros Hmc. apply Forall_forall.
    intros r (I & sx & sy & _ & _ & _ & _ & _ & _ & _ & _ & _ & _ & Hc & _ & _)%rule_anatomy.
    intros Hw. apply strength_label_spec in Hw.
    eapply Qlt_not_le; [exact Hw|]. by eapply Qle_trans.
  - intros Hmc. apply Forall_forall.
    intros r (I & sx & sy & _ & _ & _ & _ & _ & _ & _ & _ & _ & _ & Hc & _ & _)%rule_anatomy.
    apply strength_label_spec. by eapply Qle_trans.
Qed.

(** X21: the rules listed for a product are at most ten rules of the
    source list, each no more often than it occurs there, all with the
    product in their antecedent, in order of decreasing confidence; and
    every rule for the product that is left out has a confidence no larger
    than that of each rule listed. *)
Theorem recommendations_are_the_top_rules (selected_product : Item)
    (rules_source : list Rule) :
  let shown := App.recommendations selected_product rules_source in
  length shown ≤ 10 ∧
  shown ⊆+ rules_source ∧
  Forall (λ r, selected_product ∈ antecedent r) shown ∧
  StronglySorted (λ a b, (confidence b <= confidence a)%Q) shown ∧
  ∀ r s, r ∈ rules_source → selected_product ∈ antecedent r → r ∉ shown →
         s ∈ shown → (confidence r <= confidence s)%Q.
Proof.
  simpl. unfold App.recommendations.
  set (related := filter (λ r, selected_product ∈ antecedent r) rules_source).
  set (sorted := App.sort_by_confidence_desc related).
  assert (Hperm : sorted ≡ₚ related) by apply sort_by_confidence_desc_Permutation.
  assert (Hsorted : StronglySorted (λ a b, (confidence b <= confidence a)%Q)
                                   sorted)
    by apply sort_by_confidence_desc_sorted.
  assert (Hsplit : sorted = take 10 sorted ++ drop 10 sorted)
    by (by rewrite take_drop).
  split_and!.
  - rewrite length_take. lia.
  - trans sorted; [apply sublist_submseteq, sublist_take|].
    rewrite Hperm. apply sublist_submseteq, sublist_filter.
  - apply Forall_forall. intros r Hr%(elem_of_sublist _ sorted);
      [|apply sublist_take].
    rewrite Hperm in Hr. by apply list_elem_of_filter in Hr as [? _].
  - rewrite Hsplit in Hsorted. by apply StronglySorted_app_1_l in Hsorted.
  - intros r s Hr Hp Hnot Hs.
    assert (Hin : r ∈ sorted).
    { rewrite Hperm. by apply list_elem_of_filter. }
    rewrite Hsplit in Hin. apply elem_of_app in Hin as [Hin|Hin]; [done|].
    rewrite Hsplit in Hsorted.
    by apply (StronglySorted_app_1_elem_of _ _ _ s r) in Hsorted.
Qed.

(** X22: when a product has at most ten rules, all of them are listed; and
    rules of equal confidence are always listed in the order they have in
    the source list. *)
Theorem recommendations_keep_ties_in_order (selected_product : Item)
    (rules_source : list Rule) :
  let related :=
    filter (λ r, selected_product ∈ antecedent r) rules_source in
  let shown := App.recommendations selected_product rules_source in
  (length related ≤ 10 → shown ≡ₚ related) ∧
  ∀ c : Q,
    filter (λ r, Qeq_bool (confidence r) c = true) shown
      `prefix_of` filter (λ r, Qeq_bool (confidence r) c = true) related.
Proof.
  simpl. unfold App.recommendations.
  set (related := filter (λ r, selected_product ∈ antecedent r) rules_source).
  split.
  - intros Hlen. rewrite take_ge.
    + apply sort_by_confidence_desc_Permutation.
    + by rewrite sort_by_confidence_desc_Permutation.
  - intros c. rewrite <- (sort_by_confidence_desc_stable related c).
    rewrite <- (take_drop 10 (App.sort_by_confidence_desc related)) at 2.
    rewrite filter_app. by apply prefix_app_r.
Qed.
